(** * Quantum-computing-simulator: state-vector engine, Grover and Shor

    A shallow embedding of [QCS.cpp] (Shor) and [Grover.cpp] (Grover).

    Modelling conventions.
    - [int] and [long long] values are integers of [Z]; bit operations
      are [Z.land], [Z.lor], [Z.lxor], [Z.shiftl], [Z.shiftr]; [/] and
      [%] are the truncating [Z.quot] and [Z.rem] of C++.  Signed
      overflow is undefined in C++; the program only runs with
      [3 * n <= 30] qubits and moduli below [2 ^ 62], where no
      operation leaves its type, so no wrap-around occurs.  The
      products inside [power] and [mul] are taken in [__int128] and
      cannot overflow for [long long] operands.
    - [complex<double>] is a pair of real numbers: amplitudes are
      computed in exact arithmetic.
    - [vector<C>] is a list, indexed through [Z.to_nat]; an access out
      of range (undefined in C++) reads the default element or leaves
      the list unchanged.
    - the generator [rnd] is a tape of raw 64-bit outputs with a read
      position; a loop whose number of iterations depends on the data
      takes fuel and yields [None] when the fuel runs out. *)

From Stdlib Require Import ZArith Zpow_facts Reals Lra Lia Psatz.
From stdpp Require Import base option list numbers.

Open Scope Z_scope.

(** ** Complex numbers *)

Definition C : Type := (R * R)%type.

Definition C0 : C := (0%R, 0%R).
Definition C1 : C := (1%R, 0%R).
Definition Creal (x : R) : C := (x, 0%R).

Definition Cplus (z w : C) : C := ((z.1 + w.1)%R, (z.2 + w.2)%R).
Definition Cminus (z w : C) : C := ((z.1 - w.1)%R, (z.2 - w.2)%R).
Definition Cmult (z w : C) : C :=
  ((z.1 * w.1 - z.2 * w.2)%R, (z.1 * w.2 + z.2 * w.1)%R).
(** [z *= x] and [z / x] for a real [x] act on both components. *)
Definition Cscale (x : R) (z : C) : C := ((z.1 * x)%R, (z.2 * x)%R).
Definition Cdivr (z : C) (x : R) : C := ((z.1 / x)%R, (z.2 / x)%R).
(** [std::norm]: the squared magnitude. *)
Definition norm (z : C) : R := (z.1 * z.1 + z.2 * z.2)%R.

Global Instance R_inhabited : Inhabited R := populate 0%R.
Global Instance C_inhabited : Inhabited C := populate C0.

(** ** Vectors and matrices *)

(** The two [typedef]s are abbreviations, as in the source. *)
Abbreviation vec := (list C).
Abbreviation Matrix := (list (list C)).

Definition vzero (len : Z) : vec := replicate (Z.to_nat len) C0.
Definition vget (v : vec) (i : Z) : C := v !!! Z.to_nat i.
Definition vset (v : vec) (i : Z) (z : C) : vec := <[Z.to_nat i := z]> v.
(** [v[i] += z] *)
Definition vadd (v : vec) (i : Z) (z : C) : vec :=
  alter (fun old => Cplus old z) (Z.to_nat i) v.
Definition mget (T : Matrix) (d c : Z) : C :=
  (T !!! Z.to_nat d) !!! Z.to_nat c.

Definition X : Matrix := [[C0; C1]; [C1; C0]].
Definition H : Matrix :=
  [[Creal (1 / sqrt 2); Creal (1 / sqrt 2)];
   [Creal (1 / sqrt 2); Creal (- (1 / sqrt 2))]].
(** [exp(C(0, theta))] is [cos theta + i sin theta]. *)
Definition phase (theta : R) : Matrix :=
  [[C1; C0]; [C0; (cos theta, sin theta)]].

(** ** The random source *)

Record rng : Type := mkRng { tape : nat -> Z; pos : nat }.

(** Computations that read [rnd] and may run out of fuel. *)
Definition M (A : Type) : Type := rng -> option (A * rng).

Global Instance M_ret : MRet M := fun A x g => Some (x, g).
Global Instance M_bind : MBind M := fun A B f m g =>
  match m g with
  | Some (x, g') => f x g'
  | None => None
  end.
Definition lift {A} (o : option A) : M A := fun g =>
  match o with
  | Some x => Some (x, g)
  | None => None
  end.

(** [rnd()] *)
Definition rnd : M Z := fun g =>
  Some (tape g (pos g), mkRng (tape g) (S (pos g))).
(** [uniform_real_distribution<double>(0.0,1.0)(rnd)]: one raw output
    scaled to the unit interval. *)
Definition unit_of_raw (r : Z) : R := (IZR r / IZR (2 ^ 64))%R.
Definition dist : M R := r ← rnd; mret (unit_of_raw r).

Definition tape_ok (g : rng) : Prop := forall i, 0 <= tape g i < 2 ^ 64.

(** ** [struct Qubits] *)

Module Qubits.

Record t : Type := mk { n : Z; a : vec }.

Definition init (m : Z) : t :=
  mk m (vset (vzero (Z.shiftl 1 m)) 0 C1).

Definition apply_gate (st : t) (T : Matrix) (p : Z) : t :=
  let S := Z.shiftl 1 (n st) - 1 in
  let b :=
    foldl (fun b s =>
             let c := Z.land (Z.shiftr s p) 1 in
             foldl (fun b d =>
                      vadd b (Z.lxor s (Z.shiftl (Z.lxor c d) p))
                           (Cmult (mget T d c) (vget (a st) s)))
                   b (seqZ 0 2))
          (vzero (S + 1)) (seqZ 0 (S + 1)) in
  mk (n st) b.

Definition apply_cnot (st : t) (con tar : Z) : t :=
  let S := Z.shiftl 1 (n st) - 1 in
  let b :=
    foldl (fun b s =>
             let c := Z.land (Z.shiftr s con) 1 in
             vadd b (Z.lxor s (Z.shiftl c tar)) (vget (a st) s))
          (vzero (S + 1)) (seqZ 0 (S + 1)) in
  mk (n st) b.

(** The two accumulators [pro[0]], [pro[1]] of [measure]. *)
Definition probs (st : t) (p : Z) : list R :=
  let S := Z.shiftl 1 (n st) - 1 in
  foldl (fun pro s =>
           alter (fun old => (old + norm (vget (a st) s))%R)
                 (Z.to_nat (Z.land (Z.shiftr s p) 1)) pro)
        [0%R; 0%R] (seqZ 0 (S + 1)).

(** [measure] after the draw [u = dist(rnd)]. *)
Definition measure_with (u : R) (st : t) (p : Z) : Z * t :=
  let S := Z.shiftl 1 (n st) - 1 in
  let pro := probs st p in
  let d := if Rlt_dec u (pro !!! 1%nat) then 1 else 0 in
  let coef := sqrt (pro !!! Z.to_nat d) in
  let b :=
    foldl (fun b s =>
             let c := Z.land (Z.shiftr s p) 1 in
             if Z.lxor c d =? 0
             then vset b s (Cdivr (vget (a st) s) coef)
             else vset b s C0)
          (vzero (S + 1)) (seqZ 0 (S + 1)) in
  (d, mk (n st) b).

Definition measure (st : t) (p : Z) : M (Z * t) :=
  u ← dist; mret (measure_with u st p).

(** [for(i = lo; i < lo + cnt; i++) acc |= measure(i) << (i - lo)],
    the loop of [measure()] in Grover ([lo = 0]) and of both register
    read-outs in Shor. *)
Definition measure_range (st : t) (lo cnt : Z) : M (Z * t) :=
  foldl (fun acc i =>
           '(r, st) ← acc;
           '(d, st') ← measure st i;
           mret (Z.lor r (Z.shiftl d (i - lo)), st'))
        (mret (0, st)) (seqZ lo cnt).

Definition measure_all (st : t) : M (Z * t) := measure_range st 0 (n st).

End Qubits.

(** ** Modular exponentiation and the multiplication gate *)

Fixpoint power_loop (fuel : nat) (x b res n : Z) : option Z :=
  match fuel with
  | O => None
  | S fuel' =>
      if b =? 0 then Some res
      else
        let res' := if Z.land b 1 =? 0 then res else Z.rem (x * x) n in
        power_loop fuel' (Z.rem (x * x) n) (Z.shiftr b 1) res' n
  end.

(** A non-negative [long long] exponent has at most 63 significant
    bits, so 64 rounds of fuel always suffice; a negative exponent never
    reaches zero under [>>=]. *)
Definition power (x b n : Z) : option Z := power_loop 64 x b 1 n.

(** The index that [mul] adds the amplitude of [s] to. *)
Definition mul_target (con v N m s : Z) : Z :=
  if Z.land (Z.shiftr s con) 1 =? 0 then s
  else
    let w := Z.rem (Z.shiftr s m * v) N in
    Z.lor (Z.shiftl w m) (Z.land s (Z.shiftl 1 m - 1)).

Definition mul_with (v : Z) (st : Qubits.t) (con N : Z) : Qubits.t :=
  let n := Z.quot (Qubits.n st) 3 in
  let m := n * 2 in
  let S := Z.shiftl 1 (n * 3) - 1 in
  let b :=
    foldl (fun b s => vadd b (mul_target con v N m s) (vget (Qubits.a st) s))
          (vzero (S + 1)) (seqZ 0 (S + 1)) in
  Qubits.mk (Qubits.n st) b.

Definition mul (st : Qubits.t) (con a N : Z) : option Qubits.t :=
  v ← power a (Z.shiftl 1 con) N;
  Some (mul_with v st con N).

(** ** The Fourier step *)

(** [for(i = 1; i < (1 << m); i++) rev[i] = rev[i >> 1] | ((i & 1) << (m - 1))].
    The global table starts zeroed and every entry read has been written
    earlier in the same loop (or is [rev[0]], which is never written),
    so it is rebuilt from zeros here. *)
Definition fill_rev (m : Z) : list Z :=
  foldl (fun rev i =>
           <[Z.to_nat i :=
               Z.lor (rev !!! Z.to_nat (Z.shiftr i 1))
                     (Z.shiftl (Z.land i 1) (m - 1))]> rev)
        (replicate (Z.to_nat (Z.shiftl 1 m)) 0)
        (seqZ 1 (Z.shiftl 1 m - 1)).

Definition vswap (v : vec) (i j : Z) : vec :=
  vset (vset v i (vget v j)) j (vget v i).

(** The values of [mid] in [for(mid = 1; mid < lim; mid <<= 1)]. *)
Fixpoint doubling (fuel : nat) (mid lim : Z) : list Z :=
  match fuel with
  | O => []
  | S fuel' =>
      if mid <? lim then mid :: doubling fuel' (Z.shiftl mid 1) lim else []
  end.

(** The values of [j] in [for(j = 0; j < lim; j += step)]. *)
Fixpoint strided (fuel : nat) (j lim step : Z) : list Z :=
  match fuel with
  | O => []
  | S fuel' =>
      if j <? lim then j :: strided fuel' (j + step) lim step else []
  end.

(** The three nested loops of [QFT].  The twiddle [p] is stepped by
    [p *= w] exactly as in the source, which never reads it. *)
Definition butterflies (buf : vec) (lim : Z) : vec :=
  foldl (fun buf mid =>
           let w : C := (cos (PI / IZR mid), sin (PI / IZR mid)) in
           foldl (fun buf j =>
                    (foldl (fun (acc : C * vec) k =>
                              let p := acc.1 in
                              let buf := acc.2 in
                              let u := vget buf (j + k) in
                              let v := vget buf (j + k + mid) in
                              (Cmult p w,
                               vset (vset buf (j + k) (Cplus u v))
                                    (j + k + mid) (Cminus u v)))
                           (C1, buf) (seqZ 0 mid)).2)
                 buf (strided (Z.to_nat lim) 0 lim (Z.shiftl mid 1)))
        buf (doubling (Z.to_nat lim) 1 lim).

Definition QFT (st : Qubits.t) (m t : Z) (rev : list Z) : Qubits.t :=
  let lim := Z.shiftl 1 m in
  let buf :=
    foldl (fun buf i =>
             vset buf i (vget (Qubits.a st) (Z.lor i (Z.shiftl t m))))
          (vzero lim) (seqZ 0 lim) in
  let buf :=
    foldl (fun buf i =>
             let r := rev !!! Z.to_nat i in
             if i <? r then vswap buf i r else buf)
          buf (seqZ 0 lim) in
  let buf := butterflies buf lim in
  let pr := foldl (fun pr i => (pr + norm (vget buf i))%R) 0%R (seqZ 0 lim) in
  let a' :=
    foldl (fun a i => vset a (Z.lor i (Z.shiftl t m)) (Cdivr (vget buf i) pr))
          (Qubits.a st) (seqZ 0 lim) in
  Qubits.mk (Qubits.n st) a'.

(** ** Period finding *)

(** [while((1ll << n) < N) n++] *)
Fixpoint find_n (fuel : nat) (n N : Z) : option Z :=
  match fuel with
  | O => None
  | S fuel' => if Z.shiftl 1 n <? N then find_n fuel' (n + 1) N else Some n
  end.

(** [y = 1; for(i = frac.size() - 2; i >= 0; i--) y += frac[i] * x, swap(x, y)]
    run on the vector [frac] after [x] was appended; yields [(x, y)]. *)
Definition convergent (frac : list Z) (x : Z) : Z * Z :=
  foldl (fun (xy : Z * Z) i =>
           (xy.2 + (frac !!! Z.to_nat i) * xy.1, xy.1))
        (x, 1) (reverse (seqZ 0 (Z.of_nat (length frac) - 1))).

(** The [while(q)] loop.  [Some x] is [return x]; [None] is leaving the
    loop by [break] or by [q = 0].  [tested] records, in order, every
    value of [x] that reaches the two tests. *)
Fixpoint cf_loop (fuel : nat) (a N p q : Z) (frac tested : list Z)
  : option (list Z * option Z) :=
  match fuel with
  | O => None
  | S fuel' =>
      if q =? 0 then Some (tested, None)
      else
        let tmp := p in
        let frac := frac ++ [Z.quot p q] in
        let x := (convergent frac (Z.quot p q)).1 in
        let tested := tested ++ [x] in
        if N <=? x then Some (tested, None)
        else if x =? 0 then cf_loop fuel' a N q (Z.rem tmp q) frac tested
        else
          r ← power a x N;
          if r =? 1 then Some (tested, Some x)
          else cf_loop fuel' a N q (Z.rem tmp q) frac tested
  end.

(** The remainder [q] strictly decreases, so [q + 1] rounds suffice. *)
Definition cf_search (a N p q : Z) : option (list Z * option Z) :=
  cf_loop (S (Z.to_nat q)) a N p q [] [].

Definition prepare (n m : Z) : Qubits.t :=
  let st := Qubits.init (m + n) in
  let st := foldl (fun st i => Qubits.apply_gate st H i) st (seqZ 0 m) in
  Qubits.apply_gate st X m.

(** [for(i = 0; i < k; i++) mul(st, i, a, N)] *)
Definition mul_loop (st : Qubits.t) (a N k : Z) : option Qubits.t :=
  foldl (fun ost i => st ← ost; mul st i a N) (Some st) (seqZ 0 k).

(** One round of the [for(T = 1; T <= 10; T++)] loop. *)
Definition shor_attempt (a N : Z) : M (option Z) :=
  n ← lift (find_n 64 0 N);
  let m := 2 * n in
  let st := prepare n m in
  st ← lift (mul_loop st a N m);
  '(t, st) ← Qubits.measure_range st m n;
  let rev := fill_rev m in
  let st := QFT st m t rev in
  '(aux, st) ← Qubits.measure_range st 0 m;
  r ← lift (cf_search a N aux (Z.shiftl 1 m));
  mret r.2.

Fixpoint shor_attempts (left : nat) (a N : Z) : M Z :=
  match left with
  | O => mret 0
  | S left' =>
      r ← shor_attempt a N;
      match r with
      | Some x => mret x
      | None => shor_attempts left' a N
      end
  end.

Definition shor_quantum_part (a N : Z) : M Z := shor_attempts 10 a N.

(** [factor] prints two numbers and exits; the pair is the result.  The
    [do ... while] loop has no counter: [fuel] bounds it in the model
    only. *)
Fixpoint factor_loop (qpart : Z -> Z -> M Z) (fuel : nat) (n : Z)
  : M (Z * Z) :=
  match fuel with
  | O => fun _ => None
  | S fuel' =>
      raw ← rnd;
      let a := Z.rem raw (n - 1) + 1 in
      let g := Z.gcd n a in
      if 1 <? g then mret (g, Z.quot n g)
      else
        r ← qpart a n;
        if (r =? 0) || negb (Z.land r 1 =? 0) then factor_loop qpart fuel' n
        else
          e ← lift (power a (Z.quot r 2 - 1) n);
          let x := Z.gcd e n in
          if 1 <? x then mret (x, Z.quot n x)
          else
            e ← lift (power a (Z.quot r 2 + 1) n);
            let x := Z.gcd e n in
            mret (x, Z.quot n x)
  end.

Definition factor (fuel : nat) (n : Z) : M (Z * Z) :=
  factor_loop shor_quantum_part fuel n.

(** ** The second program of [QCS.cpp]

    After the first program the file holds a second one: the same
    [Qubits] and [power], a [read] for integers, a [shor_quantum_part]
    that stops once the registers are prepared, and a [factor] whose
    loop tests [r & 1] only. *)

Module Draft.

(** [getchar()]: the next byte of the input, [EOF = -1] for ever once
    the input is used up.  A byte above 127 becomes negative when it is
    stored in [char ch]; either way it is no digit and no minus sign, so
    the byte itself stands for [ch]. *)
Definition getchar (input : list Z) : Z * list Z :=
  match input with
  | [] => (-1, [])
  | c :: rest => (c, rest)
  end.

(** [while(ch<'0'||ch>'9'){if(ch=='-')y=-1;ch=getchar();}] *)
Fixpoint skip_loop (fuel : nat) (ch y : Z) (input : list Z)
  : option (Z * Z * list Z) :=
  match fuel with
  | O => None
  | S fuel' =>
      if (ch <? 48) || (57 <? ch) then
        let y := if ch =? 45 then -1 else y in
        let '(ch, input) := getchar input in
        skip_loop fuel' ch y input
      else Some (ch, y, input)
  end.

(** [while(ch>='0'&&ch<='9')x=(x<<3)+(x<<1)+(ch^48),ch=getchar();] *)
Fixpoint digit_loop (fuel : nat) (ch x : Z) (input : list Z)
  : option (Z * list Z) :=
  match fuel with
  | O => None
  | S fuel' =>
      if (48 <=? ch) && (ch <=? 57) then
        let x := Z.shiftl x 3 + Z.shiftl x 1 + Z.lxor ch 48 in
        let '(ch, input) := getchar input in
        digit_loop fuel' ch x input
      else Some (x, input)
  end.

(** The value returned and the input left unread. *)
Definition read (fuel : nat) (input : list Z) : option (Z * list Z) :=
  let '(ch, input) := getchar input in
  '(ch, y, input) ← skip_loop fuel ch 1 input;
  '(x, input) ← digit_loop fuel ch 0 input;
  Some (x * y, input).

(** The copy of [power], with the fuel of its loop left open. *)
Definition power (fuel : nat) (x b n : Z) : option Z :=
  power_loop fuel x b 1 n.

Definition shor_quantum_part (a N : Z) : option Z :=
  n ← find_n 64 0 N;
  let m := 2 * n in
  let st := prepare n m in
  let r := 0 in
  Some r.

(** [fuel] bounds the [do ... while] loop and the loop of [power]. *)
Fixpoint factor_loop (fuel : nat) (n : Z) : M (Z * Z) :=
  match fuel with
  | O => fun _ => None
  | S fuel' =>
      raw ← rnd;
      let a := Z.rem raw (n - 1) + 1 in
      let g := Z.gcd n a in
      if 1 <? g then mret (g, Z.quot n g)
      else
        r ← lift (shor_quantum_part a n);
        if negb (Z.land r 1 =? 0) then factor_loop fuel' n
        else
          e ← lift (power fuel a (Z.quot r 2 - 1) n);
          let x := Z.gcd e n in
          if 1 <? x then mret (x, Z.quot n x)
          else
            e ← lift (power fuel a (Z.quot r 2 + 1) n);
            let x := Z.gcd e n in
            mret (x, Z.quot n x)
  end.

Definition factor (fuel : nat) (n : Z) : M (Z * Z) := factor_loop fuel n.

End Draft.

(** ** Grover *)

Module Grover.

(** [st.a[i] *= -1] *)
Definition negate (st : Qubits.t) (i : Z) : Qubits.t :=
  Qubits.mk (Qubits.n st)
            (vset (Qubits.a st) i (Cscale (-1) (vget (Qubits.a st) i))).

Definition Oracle (N mx : Z) (w : list Z) (st : Qubits.t) : Qubits.t :=
  foldl (fun st i => if (w !!! Z.to_nat i) =? mx then negate st i else st)
        st (seqZ 0 N).

Definition Diffusion (n N : Z) (st : Qubits.t) : Qubits.t :=
  let st := foldl (fun st i => Qubits.apply_gate st H i) st (seqZ 0 n) in
  let st := foldl negate st (seqZ 1 (N - 1)) in
  foldl (fun st i => Qubits.apply_gate st H i) st (seqZ 0 n).

(** [while(T--) Oracle(st), Diffusion(st)] *)
Fixpoint iterate (fuel : nat) (T : Z) (n N mx : Z) (w : list Z)
         (st : Qubits.t) : option Qubits.t :=
  match fuel with
  | O => None
  | S fuel' =>
      if T =? 0 then Some st
      else iterate fuel' (T - 1) n N mx w (Diffusion n N (Oracle N mx w st))
  end.

(** [int T = pai / 4 * sqrt(N)] *)
Definition iterations (N : Z) : Z := Int_part (PI / 4 * sqrt (IZR N)).

(** [main] up to the final measurement; [w] is the shuffled array. *)
Definition search (n : Z) (w : list Z) : option Qubits.t :=
  let N := Z.shiftl 1 n in
  let mx := foldl (fun mx i => Z.max mx (w !!! Z.to_nat i)) 0 (seqZ 0 N) in
  let st := Qubits.init n in
  let st := foldl (fun st i => Qubits.apply_gate st H i) st (seqZ 0 n) in
  let T := iterations N in
  iterate (S (Z.to_nat T)) T n N mx w st.

(** The printed position and whether [assert(w[pos] == mx)] holds. *)
Definition main (n : Z) (w : list Z) : M (Z * bool) :=
  let N := Z.shiftl 1 n in
  let mx := foldl (fun mx i => Z.max mx (w !!! Z.to_nat i)) 0 (seqZ 0 N) in
  st ← lift (search n w);
  '(pos, _) ← Qubits.measure_all st;
  mret (pos, (w !!! Z.to_nat pos) =? mx).

End Grover.

(** ** Vocabulary of the specification *)

(** *** Norms and probabilities *)

Fixpoint sumR (l : list R) : R :=
  match l with
  | [] => 0%R
  | x :: l' => (x + sumR l')%R
  end.

(** The sum of the squared magnitudes of a vector. *)
Definition sumsq (v : vec) : R := sumR (norm <$> v).

(** A register of [n] qubits holds [2 ^ n] amplitudes. *)
Definition well_formed (st : Qubits.t) : Prop :=
  0 <= Qubits.n st /\
  length (Qubits.a st) = Z.to_nat (2 ^ Qubits.n st).

(** Bit [p] of the basis index [s], as the source computes it. *)
Definition bit (s p : Z) : Z := Z.land (Z.shiftr s p) 1.

(** The probability that qubit [p] reads [c]. *)
Definition marginal (st : Qubits.t) (p c : Z) : R :=
  sumR ((fun s => if bit s p =? c then norm (vget (Qubits.a st) s) else 0%R)
          <$> seqZ 0 (2 ^ Qubits.n st)).

(** *** Single-qubit gates *)

(** [s ^ (1 << p)]: the index that differs from [s] in bit [p] only. *)
Definition flip (s p : Z) : Z := Z.lxor s (Z.shiftl 1 p).

(** The amplitude that [apply_gate] leaves at [t]. *)
Definition gate_entry (T : Matrix) (p : Z) (v : vec) (t : Z) : C :=
  Cplus (Cmult (mget T (bit t p) (bit t p)) (vget v t))
        (Cmult (mget T (bit t p) (1 - bit t p)) (vget v (flip t p))).

(** The body of the outer loop of [apply_gate], for one index [s]. *)
Definition gate_step (T : Matrix) (p : Z) (v : vec) (b : vec) (s : Z) : vec :=
  let c := Z.land (Z.shiftr s p) 1 in
  foldl (fun b d =>
           vadd b (Z.lxor s (Z.shiftl (Z.lxor c d) p))
                (Cmult (mget T d c) (vget v s)))
        b (seqZ 0 2).

(** The 2x2 matrix [T] preserves the squared length of every pair. *)
Definition unitary2 (T : Matrix) : Prop :=
  forall z0 z1 : C,
    (norm (Cplus (Cmult (mget T 0 0) z0) (Cmult (mget T 0 1) z1)) +
     norm (Cplus (Cmult (mget T 1 0) z0) (Cmult (mget T 1 1) z1)))%R
    = (norm z0 + norm z1)%R.

(** *** The second register and the multiplication *)

(** Every non-zero amplitude sits at an index whose second register
    (the bits from [m] upwards) holds a value below [N]. *)
Definition supported (N m : Z) (v : vec) : Prop :=
  forall s, 0 <= s < Z.of_nat (length v) ->
            vget v s <> C0 -> Z.shiftr s m < N.

(** Every non-zero amplitude sits at an index whose second register
    holds exactly [c]. *)
Definition register_is (c m : Z) (v : vec) : Prop :=
  forall s, 0 <= s < Z.of_nat (length v) -> vget v s <> C0 -> Z.shiftr s m = c.

(** [f] is injective on the interval [[0, bound)]. *)
Definition injective_below (bound : Z) (f : Z -> Z) : Prop :=
  forall x y, 0 <= x < bound -> 0 <= y < bound -> f x = f y -> x = y.

(** [f] is a bijection of the interval [[0, bound)] onto itself. *)
Definition bijective_below (bound : Z) (f : Z -> Z) : Prop :=
  (forall x, 0 <= x < bound -> 0 <= f x < bound) /\
  injective_below bound f /\
  (forall y, 0 <= y < bound -> exists x, 0 <= x < bound /\ f x = y).

(** The map on second-register values that [mul] applies. *)
Definition times_mod (v N : Z) (value : Z) : Z := Z.rem (value * v) N.

(** *** Stages of the two programs *)

(** The tail of [shor_attempt] once both registers are read. *)
Definition extract_period (a N aux m : Z) : M (option Z) :=
  r ← lift (cf_search a N aux (Z.shiftl 1 m)); mret r.2.

(** The base that [factor] draws from the raw output [raw]. *)
Definition base_of (raw n : Z) : Z := Z.rem raw (n - 1) + 1.

(** The number of draws one attempt of the quantum part consumes. *)
Definition draws_per_attempt (N : Z) : nat := Z.to_nat (3 * Z.log2_up N).




(** *** The butterfly in the words of the specification *)

(** [exp(i * pi / mid)], the twiddle factor the specification names. *)
Definition twiddle (mid : Z) : C := (cos (PI / IZR mid), sin (PI / IZR mid)).

(** The butterfly as the specification words it: the upper half of each
    block is multiplied by the running twiddle [p] before it is added
    and subtracted.  [tw] gives the factor for each half-block size. *)
Definition butterflies_twiddled_with (tw : Z -> C) (buf : vec) (lim : Z) : vec :=
  foldl (fun buf mid =>
           let w := tw mid in
           foldl (fun buf j =>
                    (foldl (fun (acc : C * vec) k =>
                              let p := acc.1 in
                              let buf := acc.2 in
                              let u := vget buf (j + k) in
                              let v := Cmult p (vget buf (j + k + mid)) in
                              (Cmult p w,
                               vset (vset buf (j + k) (Cplus u v))
                                    (j + k + mid) (Cminus u v)))
                           (C1, buf) (seqZ 0 mid)).2)
                 buf (strided (Z.to_nat lim) 0 lim (Z.shiftl mid 1)))
        buf (doubling (Z.to_nat lim) 1 lim).

Definition butterflies_twiddled (buf : vec) (lim : Z) : vec :=
  butterflies_twiddled_with twiddle buf lim.

(** *** Concrete tapes and states *)

(** A tape that always yields the raw value [r]. *)
Definition constant_tape (r : Z) : rng := mkRng (fun _ => r) 0.


(** Twelve qubits ([n = 4], [N = 15]) with amplitude [3/5] at second
    register 0 and [4/5] at second register 15, qubit 0 set in both. *)
Definition merged_state : Qubits.t :=
  Qubits.mk 12 (vset (vset (vzero 4096) 1 (Creal (3 / 5))) 3841 (Creal (4 / 5))).

(** Three qubits ([m = 2], [n = 1]); the block of second-register value
    0 holds the basis vector of index 1. *)
Definition delta_state : Qubits.t :=
  Qubits.mk 3 [C0; C1; C0; C0; C0; C0; C0; C0].

(** *** Proof automation *)

(** Splits every complex number of the context into its two parts and
    unfolds the complex operations. *)
Ltac Csimpl :=
  repeat match goal with
         | z : C |- _ => destruct z
         end;
  unfold Cplus, Cminus, Cmult, Cscale, Cdivr, Creal, norm, C0, C1 in *;
  cbn [fst snd] in *.

(** ** Modular exponentiation *)

Lemma power_loop_top (fuel : nat) (x b res n : Z) :
  0 <= x -> 0 < n -> 0 < b -> Z.log2 b + 1 < Z.of_nat fuel ->
  power_loop fuel x b res n = Some (x ^ (2 ^ (Z.log2 b + 1)) mod n).
Proof.
  revert x b res.
  induction fuel as [|fuel IH]; intros x b res Hx Hn Hb Hfuel.
  { pose proof (Z.log2_nonneg b). lia. }
  cbn [power_loop].
  destruct (Z.eqb_spec b 0) as [->|_]; [lia|].
  assert (Hrem : Z.rem (x * x) n = (x * x) mod n)
    by (apply Z.rem_mod_nonneg; nia).
  rewrite Hrem.
  destruct (Z.eq_dec b 1) as [->|Hb1].
  - change (Z.shiftr 1 1) with 0. change (Z.land 1 1) with 1.
    destruct fuel as [|fuel]; [cbn in Hfuel; lia|].
    cbn. f_equal. change (Z.pow_pos 2 1) with 2.
    change (Z.pow_pos x 2) with (x ^ 2). f_equal. lia.
  - assert (Hlog : 0 < Z.log2 b) by (apply Z.log2_pos; lia).
    assert (Hb' : 0 < Z.shiftr b 1).
    { rewrite Z.shiftr_div_pow2 by lia. change (2 ^ 1) with 2.
      apply Z.div_str_pos. lia. }
    assert (Hlog' : Z.log2 (Z.shiftr b 1) = Z.log2 b - 1).
    { rewrite Z.log2_shiftr by lia. lia. }
    rewrite IH; try lia.
    + rewrite Hlog'. f_equal.
      rewrite Z.mod_pow_l.
      replace (x * x) with (x ^ 2) by lia.
      rewrite <- Z.pow_mul_r by (try lia; apply Z.pow_nonneg; lia).
      f_equal. f_equal.
      replace (Z.log2 b + 1) with (Z.succ (Z.log2 b - 1 + 1)) by lia.
      rewrite Z.pow_succ_r by lia. reflexivity.
    + apply Z.mod_pos_bound. lia.
Qed.

Lemma power_closed_form (x b n : Z) :
  0 <= x -> 0 < n -> 0 < b < 2 ^ 63 ->
  power x b n = Some (x ^ (2 ^ (Z.log2 b + 1)) mod n).
Proof.
  intros Hx Hn [Hb Hlt]. unfold power.
  apply power_loop_top; try lia.
  assert (Z.log2 b < 63) by (apply Z.log2_lt_pow2; lia).
  lia.
Qed.

Lemma power_two_power (a i N : Z) :
  0 <= a -> 0 < N -> 0 <= i <= 62 ->
  power a (Z.shiftl 1 i) N = Some (a ^ (2 ^ (i + 1)) mod N).
Proof.
  intros Ha HN Hi.
  rewrite Z.shiftl_1_l.
  rewrite power_closed_form; try lia.
  - rewrite Z.log2_pow2 by lia. reflexivity.
  - split; [apply Z.pow_pos_nonneg; lia|].
    apply Z.pow_lt_mono_r; lia.
Qed.

(** C1 (code defect).  On the exponent [1] the loop of [power] stores
    [x * x % n] where the square-and-multiply scheme stores
    [res * x % n]: [power(2, 1, 15)] is [4], while [2 ^ 1 mod 15] is
    [2].  For the oracle this means [v = power(a, 2 ^ 0, N)] is
    [a ^ 2 mod N]. *)
Theorem power_misses_modular_power :
  power 2 1 15 = Some 4 /\
  2 ^ 1 mod 15 = 2 /\
  power 2 (Z.shiftl 1 0) 15 = Some (2 ^ (2 ^ 1) mod 15).
Proof. repeat split. Qed.

(** ** Continued fractions *)

(** C2 (code defect).  For [aux = 128], [2 ^ m = 256], [N = 15] the
    values of [x] that reach the tests are [0] and then [1]: after the
    [swap] the numerator of the convergent [1/2] is in [x] and its
    denominator [2] is in [y], which is never tested.  With [a = 7] the
    search ends without a period; with [a = 4] it returns [1]. *)
Theorem cf_search_tests_numerators :
  cf_search 7 15 128 256 = Some ([0; 1], None) /\
  cf_search 4 15 128 256 = Some ([0; 1], Some 1) /\
  convergent [0; 2] 2 = (1, 2).
Proof. repeat split. Qed.

(** ** Sums of reals *)

Lemma sumR_app (l k : list R) : sumR (l ++ k) = (sumR l + sumR k)%R.
Proof. induction l as [|x l IH]; cbn; [lra|]. rewrite IH. lra. Qed.

Lemma sumR_Permutation (l k : list R) : l ≡ₚ k -> sumR l = sumR k.
Proof.
  induction 1 as [|x l k _ IH|x y l|l k j _ IH1 _ IH2]; cbn; lra.
Qed.

Lemma sumR_fmap_ext {A} (f g : A -> R) (l : list A) :
  (forall x, x ∈ l -> f x = g x) -> sumR (f <$> l) = sumR (g <$> l).
Proof.
  induction l as [|x l IH]; intros Hfg; cbn; [reflexivity|].
  rewrite Hfg by left. rewrite IH; [reflexivity|].
  intros y Hy. apply Hfg. by right.
Qed.

Lemma sumR_fmap_plus {A} (f g : A -> R) (l : list A) :
  sumR ((fun x => (f x + g x)%R) <$> l) = (sumR (f <$> l) + sumR (g <$> l))%R.
Proof. induction l as [|x l IH]; cbn; [lra|]. rewrite IH. lra. Qed.

Lemma sumR_fmap_scale {A} (c : R) (f : A -> R) (l : list A) :
  sumR ((fun x => (c * f x)%R) <$> l) = (c * sumR (f <$> l))%R.
Proof. induction l as [|x l IH]; cbn; [lra|]. rewrite IH. lra. Qed.

Lemma sumR_fmap_zero {A} (f : A -> R) (l : list A) :
  (forall x, x ∈ l -> f x = 0%R) -> sumR (f <$> l) = 0%R.
Proof.
  induction l as [|x l IH]; intros Hf; cbn; [reflexivity|].
  rewrite Hf by left. rewrite IH; [lra|].
  intros y Hy. apply Hf. by right.
Qed.

Lemma sumR_fmap_nonneg {A} (f : A -> R) (l : list A) :
  (forall x, x ∈ l -> (0 <= f x)%R) -> (0 <= sumR (f <$> l))%R.
Proof.
  induction l as [|x l IH]; intros Hf; cbn; [lra|].
  assert (0 <= f x)%R by (apply Hf; left).
  assert (0 <= sumR (f <$> l))%R by (apply IH; intros y Hy; apply Hf; by right).
  lra.
Qed.

(** One summand bounds a sum of non-negative terms from below. *)
Lemma sumR_fmap_ge_term {A} (f : A -> R) (l : list A) (x : A) :
  (forall y, y ∈ l -> (0 <= f y)%R) -> x ∈ l -> (f x <= sumR (f <$> l))%R.
Proof.
  induction l as [|y l IH]; intros Hf Hx; [by apply elem_of_nil in Hx|].
  cbn. assert (0 <= f y)%R by (apply Hf; left).
  assert (0 <= sumR (f <$> l))%R
    by (apply sumR_fmap_nonneg; intros z Hz; apply Hf; by right).
  apply elem_of_cons in Hx as [->|Hx]; [lra|].
  assert (f x <= sumR (f <$> l))%R
    by (apply IH; [intros z Hz; apply Hf; by right|done]).
  lra.
Qed.

(** A sum over an interval is unchanged when its index is sent through
    an injection of the interval into itself. *)
Lemma sumR_reindex (sigma : Z -> Z) (len : Z) (f : Z -> R) :
  (forall s, 0 <= s < len -> 0 <= sigma s < len) ->
  injective_below len sigma ->
  sumR ((fun s => f (sigma s)) <$> seqZ 0 len) = sumR (f <$> seqZ 0 len).
Proof.
  intros Hrange Hinj.
  change (fun s => f (sigma s)) with (f ∘ sigma).
  rewrite list_fmap_compose.
  apply sumR_Permutation, fmap_Permutation.
  apply submseteq_length_Permutation.
  - apply NoDup_submseteq.
    + apply NoDup_fmap_2_strong; [|apply NoDup_seqZ].
      intros x y Hx%elem_of_seqZ Hy%elem_of_seqZ. apply Hinj; lia.
    + intros y (x & -> & Hx%elem_of_seqZ)%list_elem_of_fmap.
      apply elem_of_seqZ. specialize (Hrange x). lia.
  - by rewrite length_fmap.
Qed.

Lemma norm_nonneg (z : C) : (0 <= norm z)%R.
Proof. unfold norm. nra. Qed.

Lemma norm_C0 : norm C0 = 0%R.
Proof. unfold norm, C0. cbn. lra. Qed.

Lemma C_eq_dec (z w : C) : {z = w} + {z <> w}.
Proof.
  destruct z as [x y], w as [x' y'].
  destruct (Req_dec_T x x') as [->|Hx]; [|right; congruence].
  destruct (Req_dec_T y y') as [->|Hy]; [left|right]; congruence.
Qed.

(** ** Vectors *)

Lemma length_vzero (len : Z) : length (vzero len) = Z.to_nat len.
Proof. apply length_replicate. Qed.

Lemma vget_vzero (len i : Z) : vget (vzero len) i = C0.
Proof.
  unfold vget, vzero.
  destruct (decide (Z.to_nat i < Z.to_nat len)%nat) as [Hlt|Hge].
  - by apply lookup_total_replicate_2.
  - rewrite list_lookup_total_alt, (proj1 (lookup_replicate_None _ _ _)); [done|lia].
Qed.

Lemma length_vadd (v : vec) (i : Z) (z : C) : length (vadd v i z) = length v.
Proof. apply length_alter. Qed.

Lemma length_vset (v : vec) (i : Z) (z : C) : length (vset v i z) = length v.
Proof. apply length_insert. Qed.

Lemma vget_vadd_eq (v : vec) (i : Z) (z : C) :
  0 <= i < Z.of_nat (length v) -> vget (vadd v i z) i = Cplus (vget v i) z.
Proof. intros Hi. unfold vget, vadd. rewrite list_lookup_total_alter_eq; [done|lia]. Qed.

Lemma vget_vadd_ne (v : vec) (i j : Z) (z : C) :
  0 <= i -> 0 <= j -> i <> j -> vget (vadd v i z) j = vget v j.
Proof. intros Hi Hj Hij. unfold vget, vadd. rewrite list_lookup_total_alter_ne; [done|lia]. Qed.

Lemma vget_vset_eq (v : vec) (i : Z) (z : C) :
  0 <= i < Z.of_nat (length v) -> vget (vset v i z) i = z.
Proof. intros Hi. unfold vget, vset. rewrite list_lookup_total_insert_eq; [done|lia]. Qed.

Lemma vget_vset_ne (v : vec) (i j : Z) (z : C) :
  0 <= i -> 0 <= j -> i <> j -> vget (vset v i z) j = vget v j.
Proof. intros Hi Hj Hij. unfold vget, vset. rewrite list_lookup_total_insert_ne; [done|lia]. Qed.

Lemma sumsq_index (v : vec) :
  sumsq v = sumR ((fun s => norm (vget v s)) <$> seqZ 0 (Z.of_nat (length v))).
Proof.
  unfold sumsq. f_equal.
  apply list_eq. intros i.
  rewrite !list_lookup_fmap.
  destruct (decide (i < length v)%nat) as [Hlt|Hge].
  - rewrite lookup_seqZ_lt by lia. cbn.
    unfold vget. rewrite Z.add_0_l, Nat2Z.id.
    destruct (lookup_lt_is_Some_2 v i Hlt) as [z Hz].
    rewrite Hz. cbn. by rewrite (list_lookup_total_correct _ _ _ Hz).
  - rewrite lookup_seqZ_ge by lia.
    rewrite lookup_ge_None_2 by lia. done.
Qed.

(** ** Bits of a basis index *)

Lemma bit_testbit (s p : Z) : 0 <= p -> bit s p = Z.b2z (Z.testbit s p).
Proof.
  intros Hp. unfold bit.
  change 1 with (Z.ones 1). rewrite Z.land_ones by lia.
  rewrite Z.shiftr_div_pow2 by lia.
  by rewrite Z.testbit_spec'.
Qed.

Lemma bit_cases (s p : Z) : 0 <= p -> bit s p = 0 \/ bit s p = 1.
Proof. intros Hp. rewrite bit_testbit by done. destruct (Z.testbit s p); auto. Qed.

Lemma testbit_flip (s p i : Z) :
  0 <= p -> 0 <= i ->
  Z.testbit (flip s p) i = xorb (Z.testbit s i) (p =? i).
Proof.
  intros Hp Hi. unfold flip.
  rewrite Z.lxor_spec, Z.shiftl_1_l, Z.pow2_bits_eqb by lia. done.
Qed.

Lemma flip_flip (s p : Z) : flip (flip s p) p = s.
Proof.
  unfold flip. by rewrite Z.lxor_assoc, Z.lxor_nilpotent, Z.lxor_0_r.
Qed.

Lemma flip_range (s p n : Z) :
  0 <= p < n -> 0 <= s < 2 ^ n -> 0 <= flip s p < 2 ^ n.
Proof.
  intros Hp Hs.
  assert (Hnn : 0 <= flip s p).
  { unfold flip. apply Z.lxor_nonneg. rewrite Z.shiftl_1_l.
    split; intros _; [apply Z.pow_nonneg|]; lia. }
  split; [done|].
  apply (Z.bounded_iff_bits_nonneg n); [lia|done|].
  intros l Hl. rewrite testbit_flip by lia.
  destruct (Z.eqb_spec p l); [lia|].
  rewrite xorb_false_r.
  apply (Z.bounded_iff_bits_nonneg n s); lia.
Qed.

Lemma bit_flip (s p : Z) : 0 <= p -> bit (flip s p) p = 1 - bit s p.
Proof.
  intros Hp. rewrite !bit_testbit, testbit_flip, Z.eqb_refl by lia.
  by destruct (Z.testbit s p).
Qed.

Lemma flip_neq (s p : Z) : 0 <= p -> flip s p <> s.
Proof.
  intros Hp Heq. pose proof (bit_flip s p Hp) as Hb.
  rewrite Heq in Hb. lia.
Qed.

Lemma flip_inj (n p : Z) : injective_below n (fun s => flip s p).
Proof.
  intros x y _ _ Hxy. by rewrite <- (flip_flip x p), Hxy, flip_flip.
Qed.

(** ** Arithmetic of the amplitudes *)

Lemma Cplus_0_l (z : C) : Cplus C0 z = z.
Proof. Csimpl. f_equal; lra. Qed.

Lemma Cplus_0_r (z : C) : Cplus z C0 = z.
Proof. Csimpl. f_equal; lra. Qed.

Lemma Cplus_comm (z w : C) : Cplus z w = Cplus w z.
Proof. Csimpl. f_equal; lra. Qed.

Lemma Cmult_0_r (z : C) : Cmult z C0 = C0.
Proof. Csimpl. f_equal; lra. Qed.

Lemma sqrt2_sqr : (sqrt 2 * sqrt 2 = 2)%R.
Proof. apply sqrt_sqrt. lra. Qed.

Lemma inv_sqrt2_sqr : (1 / sqrt 2 * (1 / sqrt 2) = 1 / 2)%R.
Proof.
  pose proof sqrt2_sqr. pose proof sqrt2_neq_0.
  field_simplify_eq; [lra|done].
Qed.

(** ** [apply_gate], entry by entry *)

Lemma gate_step_get (T : Matrix) (p : Z) (v b : vec) (s t : Z) (n : Z) :
  0 <= p < n -> length b = Z.to_nat (2 ^ n) ->
  0 <= s < 2 ^ n -> 0 <= t < 2 ^ n ->
  length (gate_step T p v b s) = length b /\
  vget (gate_step T p v b s) t =
    Cplus (vget b t)
          (Cplus (if decide (t = s)
                  then Cmult (mget T (bit t p) (bit t p)) (vget v t) else C0)
                 (if decide (flip t p = s)
                  then Cmult (mget T (bit t p) (1 - bit t p)) (vget v (flip t p))
                  else C0)).
Proof.
  intros Hp Hlen Hs Ht.
  assert (H2n : 0 < 2 ^ n) by (apply Z.pow_pos_nonneg; lia).
  pose proof (flip_range s p n Hp Hs) as Hfs.
  pose proof (flip_neq s p ltac:(lia)) as Hne.
  pose proof (bit_flip s p ltac:(lia)) as Hbf.
  unfold gate_step. change (seqZ 0 2) with [0; 1]. cbn [foldl].
  fold (bit s p) in *.
  split; [by rewrite !length_vadd|].
  destruct (bit_cases s p ltac:(lia)) as [Hc|Hc]; rewrite Hc in *;
    change (Z.lxor 0 0) with 0; change (Z.lxor 0 1) with 1;
    change (Z.lxor 1 0) with 1; change (Z.lxor 1 1) with 0;
    rewrite ?Z.shiftl_0_l, ?Z.lxor_0_r; fold (flip s p).
  - destruct (decide (t = s)) as [->|Hts].
    + rewrite vget_vadd_ne, vget_vadd_eq by lia.
      rewrite Hc. destruct (decide (flip s p = s)); [done|].
      by rewrite Cplus_0_r.
    + destruct (decide (flip t p = s)) as [Hft|Hft].
      * assert (t = flip s p) as -> by (by rewrite <- Hft, flip_flip).
        rewrite vget_vadd_eq by (rewrite length_vadd; lia).
        rewrite vget_vadd_ne by lia.
        rewrite Hbf, flip_flip. change (1 - (1 - 0)) with 0.
        by rewrite Cplus_0_l.
      * assert (t <> flip s p) by (intros ->; by rewrite flip_flip in Hft).
        rewrite !vget_vadd_ne by lia. by rewrite !Cplus_0_r.
  - destruct (decide (t = s)) as [->|Hts].
    + rewrite vget_vadd_eq by (rewrite length_vadd; lia).
      rewrite vget_vadd_ne by lia.
      rewrite Hc. destruct (decide (flip s p = s)); [done|].
      by rewrite Cplus_0_r.
    + destruct (decide (flip t p = s)) as [Hft|Hft].
      * assert (t = flip s p) as -> by (by rewrite <- Hft, flip_flip).
        rewrite vget_vadd_ne, vget_vadd_eq by lia.
        rewrite Hbf, flip_flip. change (1 - (1 - 1)) with 1.
        by rewrite Cplus_0_l.
      * assert (t <> flip s p) by (intros ->; by rewrite flip_flip in Hft).
        rewrite !vget_vadd_ne by lia. by rewrite !Cplus_0_r.
Qed.

Lemma gate_loop_get (T : Matrix) (p : Z) (v : vec) (n : Z) (k : nat) :
  0 <= p < n -> Z.of_nat k <= 2 ^ n ->
  let b := foldl (gate_step T p v) (vzero (2 ^ n)) (seqZ 0 (Z.of_nat k)) in
  length b = Z.to_nat (2 ^ n) /\
  forall t, 0 <= t < 2 ^ n ->
    vget b t =
      Cplus (if decide (t < Z.of_nat k)
             then Cmult (mget T (bit t p) (bit t p)) (vget v t) else C0)
            (if decide (flip t p < Z.of_nat k)
             then Cmult (mget T (bit t p) (1 - bit t p)) (vget v (flip t p))
             else C0).
Proof.
  intros Hp.
  assert (H2n : 0 < 2 ^ n) by (apply Z.pow_pos_nonneg; lia).
  induction k as [|k IH]; intros Hk b.
  - subst b. change (seqZ 0 (Z.of_nat 0)) with (@nil Z). cbn [foldl].
    split; [apply length_vzero|].
    intros t Ht. rewrite vget_vzero.
    pose proof (flip_range t p n Hp Ht).
    repeat case_decide; try lia. by rewrite Cplus_0_l.
  - subst b. rewrite seqZ_S, foldl_snoc, Z.add_0_l.
    destruct IH as [IHlen IHget]; [lia|].
    set (b := foldl _ _ _) in *. clearbody b.
    assert (Hk' : 0 <= Z.of_nat k < 2 ^ n) by lia.
    split.
    + destruct (gate_step_get T p v b (Z.of_nat k) 0 n Hp IHlen Hk') as [-> _];
        [lia|done].
    + intros t Ht.
      destruct (gate_step_get T p v b (Z.of_nat k) t n Hp IHlen Hk' Ht) as [_ ->].
      rewrite IHget by done.
      pose proof (flip_range t p n Hp Ht).
      pose proof (flip_neq t p ltac:(lia)).
      repeat case_decide; try lia;
        rewrite ?Cplus_0_l, ?Cplus_0_r; first [done | apply Cplus_comm].
Qed.

Lemma apply_gate_get (st : Qubits.t) (T : Matrix) (p t : Z) :
  well_formed st -> 0 <= p < Qubits.n st -> 0 <= t < 2 ^ Qubits.n st ->
  vget (Qubits.a (Qubits.apply_gate st T p)) t = gate_entry T p (Qubits.a st) t.
Proof.
  intros [Hn Hlen] Hp Ht.
  unfold Qubits.apply_gate. cbn [Qubits.a].
  rewrite Z.shiftl_1_l. replace (2 ^ Qubits.n st - 1 + 1) with (2 ^ Qubits.n st) by lia.
  change (foldl _ (vzero ?l) ?r) with (foldl (gate_step T p (Qubits.a st)) (vzero l) r).
  pose proof (gate_loop_get T p (Qubits.a st) (Qubits.n st) (Z.to_nat (2 ^ Qubits.n st)) Hp) as Hloop.
  rewrite Z2Nat.id in Hloop by lia.
  destruct (Hloop ltac:(lia)) as [_ ->]; [|done].
  pose proof (flip_range t p _ Hp Ht).
  unfold gate_entry. repeat case_decide; try lia. done.
Qed.

Lemma apply_gate_wf (st : Qubits.t) (T : Matrix) (p : Z) :
  well_formed st -> 0 <= p < Qubits.n st ->
  well_formed (Qubits.apply_gate st T p).
Proof.
  intros [Hn Hlen] Hp. split; [done|].
  unfold Qubits.apply_gate. cbn [Qubits.a Qubits.n].
  rewrite Z.shiftl_1_l. replace (2 ^ Qubits.n st - 1 + 1) with (2 ^ Qubits.n st) by lia.
  change (foldl _ (vzero ?l) ?r) with (foldl (gate_step T p (Qubits.a st)) (vzero l) r).
  pose proof (gate_loop_get T p (Qubits.a st) (Qubits.n st) (Z.to_nat (2 ^ Qubits.n st)) Hp) as Hloop.
  rewrite Z2Nat.id in Hloop by lia.
  by destruct (Hloop ltac:(lia)) as [-> _].
Qed.

(** ** Gates preserve the sum of squares *)

Lemma mget_X :
  mget X 0 0 = C0 /\ mget X 0 1 = C1 /\ mget X 1 0 = C1 /\ mget X 1 1 = C0.
Proof. done. Qed.

Lemma mget_H :
  mget H 0 0 = Creal (1 / sqrt 2) /\ mget H 0 1 = Creal (1 / sqrt 2) /\
  mget H 1 0 = Creal (1 / sqrt 2) /\ mget H 1 1 = Creal (- (1 / sqrt 2)).
Proof. done. Qed.

Lemma unitary2_X : unitary2 X.
Proof.
  intros z0 z1. destruct mget_X as (-> & -> & -> & ->).
  Csimpl. ring.
Qed.

Lemma unitary2_H : unitary2 H.
Proof.
  intros [x0 y0] [x1 y1]. destruct mget_H as (-> & -> & -> & ->).
  unfold Cplus, Cmult, Creal, norm. cbn [fst snd].
  pose proof inv_sqrt2_sqr as Hh.
  set (h := (1 / sqrt 2)%R) in *.
  transitivity (2 * (h * h) * (x0 * x0 + y0 * y0 + (x1 * x1 + y1 * y1)))%R;
    [ring|].
  rewrite Hh. lra.
Qed.

Lemma gate_entry_pair (T : Matrix) (p : Z) (v : vec) (t : Z) :
  0 <= p -> unitary2 T ->
  (norm (gate_entry T p v t) + norm (gate_entry T p v (flip t p)))%R
  = (norm (vget v t) + norm (vget v (flip t p)))%R.
Proof.
  intros Hp HT. unfold gate_entry.
  rewrite flip_flip, bit_flip by done.
  destruct (bit_cases t p Hp) as [Hb|Hb]; rewrite Hb.
  - change (1 - 0) with 1. change (1 - 1) with 0.
    rewrite <- (HT (vget v t) (vget v (flip t p))).
    f_equal. f_equal. apply Cplus_comm.
  - change (1 - 1) with 0. change (1 - 0) with 1.
    rewrite (Rplus_comm (norm (vget v t))).
    rewrite <- (HT (vget v (flip t p)) (vget v t)).
    rewrite Rplus_comm. f_equal. f_equal. apply Cplus_comm.
Qed.

Lemma apply_gate_sumsq (st : Qubits.t) (T : Matrix) (p : Z) :
  well_formed st -> 0 <= p < Qubits.n st -> unitary2 T ->
  sumsq (Qubits.a (Qubits.apply_gate st T p)) = sumsq (Qubits.a st).
Proof.
  intros Hwf Hp HT.
  pose proof (apply_gate_wf st T p Hwf Hp) as [_ Hlen'].
  destruct Hwf as [Hn Hlen].
  assert (H2n : 0 < 2 ^ Qubits.n st) by (apply Z.pow_pos_nonneg; lia).
  cbn [Qubits.n Qubits.apply_gate] in Hlen'.
  rewrite !sumsq_index, Hlen', Hlen, Z2Nat.id by lia.
  set (len := 2 ^ Qubits.n st) in *.
  set (b := Qubits.a (Qubits.apply_gate st T p)).
  set (g := fun s => norm (vget b s)).
  set (h := fun s => norm (vget (Qubits.a st) s)).
  assert (Hg : sumR ((fun s => g (flip s p)) <$> seqZ 0 len) = sumR (g <$> seqZ 0 len)).
  { apply sumR_reindex; [|apply flip_inj].
    intros s Hs. by apply flip_range. }
  assert (Hh : sumR ((fun s => h (flip s p)) <$> seqZ 0 len) = sumR (h <$> seqZ 0 len)).
  { apply sumR_reindex; [|apply flip_inj].
    intros s Hs. by apply flip_range. }
  assert (Hpair : sumR ((fun s => (g s + g (flip s p))%R) <$> seqZ 0 len)
                  = sumR ((fun s => (h s + h (flip s p))%R) <$> seqZ 0 len)).
  { apply sumR_fmap_ext. intros s Hs%elem_of_seqZ.
    pose proof (flip_range s p _ Hp ltac:(lia)) as Hf.
    unfold g, h, b.
    rewrite !apply_gate_get by (done || lia || (split; done)).
    apply gate_entry_pair; [lia|done]. }
  rewrite !sumR_fmap_plus, Hg, Hh in Hpair.
  change (sumR (g <$> seqZ 0 len) = sumR (h <$> seqZ 0 len)). lra.
Qed.

(** ** Multiplication modulo [N] *)

Lemma times_mod_range (v N x : Z) :
  0 <= v -> 0 < N -> 0 <= x -> 0 <= times_mod v N x < N.
Proof.
  intros Hv HN Hx. unfold times_mod.
  rewrite Z.rem_mod_nonneg by nia. apply Z.mod_pos_bound. lia.
Qed.

Lemma times_mod_inj (v N : Z) :
  0 <= v -> 0 < N -> Z.gcd v N = 1 -> injective_below N (times_mod v N).
Proof.
  intros Hv HN Hrel x y Hx Hy. unfold times_mod.
  rewrite !Z.rem_mod_nonneg by nia. intros Heq.
  assert (Hdiv : (N | v * (x - y))).
  { apply Z.mod_divide; [lia|].
    replace (v * (x - y)) with (x * v - y * v) by ring.
    rewrite Zminus_mod, Heq, Z.sub_diag. apply Z.mod_0_l. lia. }
  apply Z.gauss in Hdiv; [|by rewrite Z.gcd_comm].
  destruct Hdiv as [q Hq].
  destruct (Z.lt_trichotomy q 0) as [Hq0|[Hq0|Hq0]]; nia.
Qed.

Lemma times_mod_surj (v N y : Z) :
  0 <= v -> 1 < N -> Z.gcd v N = 1 -> 0 <= y < N ->
  exists x, 0 <= x < N /\ times_mod v N x = y.
Proof.
  intros Hv HN Hrel Hy.
  exists ((y * Z.invmod v N) mod N). split; [apply Z.mod_pos_bound; lia|].
  unfold times_mod.
  assert (0 <= (y * Z.invmod v N) mod N) by (apply Z.mod_pos_bound; lia).
  rewrite Z.rem_mod_nonneg by nia.
  rewrite Z.mul_mod_idemp_l by lia.
  replace (y * Z.invmod v N * v) with (y * (Z.invmod v N * v)) by ring.
  rewrite <- Z.mul_mod_idemp_r by lia.
  rewrite Z.invmod_coprime by (done || lia).
  rewrite Z.mul_1_r. apply Z.mod_small. lia.
Qed.

Lemma times_mod_bijective (v N : Z) :
  0 <= v -> 1 < N -> Z.gcd v N = 1 -> bijective_below N (times_mod v N).
Proof.
  intros Hv HN Hrel. split; [|split].
  - intros x Hx. apply times_mod_range; lia.
  - apply times_mod_inj; [done|lia|done].
  - intros y Hy. by apply times_mod_surj.
Qed.

(** The multiplier computed by [mul] is coprime to [N] when [a] is. *)
Lemma power_rel_prime (a i N : Z) :
  0 <= a -> 1 < N -> 0 <= i <= 62 -> Z.gcd a N = 1 ->
  exists v, power a (Z.shiftl 1 i) N = Some v /\ 0 <= v < N /\ Z.gcd v N = 1.
Proof.
  intros Ha HN Hi Hgcd.
  exists (a ^ (2 ^ (i + 1)) mod N).
  split; [apply power_two_power; lia|].
  split; [apply Z.mod_pos_bound; lia|].
  apply Z.coprime_mod_l_iff, Z.coprime_pow_l; [|done].
  apply Z.pow_nonneg; lia.
Qed.

(** ** The index map of [mul] *)

Lemma lor_shiftl_low (w lo m : Z) :
  0 <= m -> 0 <= lo < 2 ^ m -> Z.lor (Z.shiftl w m) lo = w * 2 ^ m + lo.
Proof.
  intros Hm Hlo.
  rewrite <- Z.shiftl_mul_pow2 by done.
  symmetry. apply Z.add_nocarry_lor.
  apply Z.bits_inj'. intros i Hi.
  rewrite Z.land_spec, Z.bits_0.
  destruct (decide (i < m)) as [Hlt|Hge].
  - by rewrite Z.shiftl_spec_low.
  - rewrite (proj1 (Z.bounded_iff_bits_nonneg m lo Hm ltac:(lia)) ltac:(lia) i) by lia.
    apply andb_false_r.
Qed.

Lemma land_low_mask (s m : Z) :
  0 <= m -> Z.land s (Z.shiftl 1 m - 1) = s mod 2 ^ m.
Proof.
  intros Hm. rewrite Z.shiftl_1_l, <- Z.land_ones by done.
  by rewrite Z.ones_equiv, <- Z.sub_1_r.
Qed.

(** [mul_target] in arithmetic form: the second register is multiplied,
    the first register is kept. *)
Lemma mul_target_arith (con v N m s : Z) :
  0 <= m -> 0 <= v -> 0 < N -> 0 <= s ->
  mul_target con v N m s =
    if bit s con =? 0 then s
    else times_mod v N (s / 2 ^ m) * 2 ^ m + s mod 2 ^ m.
Proof.
  intros Hm Hv HN Hs. unfold mul_target. fold (bit s con).
  destruct (bit s con =? 0); [done|].
  rewrite land_low_mask, Z.shiftr_div_pow2 by done.
  rewrite lor_shiftl_low; [done|done|].
  apply Z.mod_pos_bound. apply Z.pow_pos_nonneg; lia.
Qed.

Lemma bit_low (s s' con m : Z) :
  0 <= con < m -> s mod 2 ^ m = s' mod 2 ^ m -> bit s con = bit s' con.
Proof.
  intros Hcon Hmod. rewrite !bit_testbit by lia.
  rewrite <- (Z.mod_pow2_bits_low s m con), <- (Z.mod_pow2_bits_low s' m con) by lia.
  by rewrite Hmod.
Qed.

Lemma pow_split (n : Z) : 0 <= n -> 2 ^ (n * 3) = 2 ^ n * 2 ^ (n * 2).
Proof. intros Hn. rewrite <- Z.pow_add_r by lia. f_equal. lia. Qed.

Lemma mul_target_hi (con v N m s : Z) :
  0 <= m -> 0 <= v -> 0 < N -> 0 <= s ->
  mul_target con v N m s / 2 ^ m =
    if bit s con =? 0 then s / 2 ^ m else times_mod v N (s / 2 ^ m).
Proof.
  intros Hm Hv HN Hs. rewrite mul_target_arith by lia.
  destruct (bit s con =? 0); [done|].
  assert (0 < 2 ^ m) by (apply Z.pow_pos_nonneg; lia).
  rewrite Z.add_comm, Z.div_add by lia.
  rewrite Z.div_small by (apply Z.mod_pos_bound; lia). lia.
Qed.

Lemma mul_target_lo (con v N m s : Z) :
  0 <= m -> 0 <= v -> 0 < N -> 0 <= s ->
  mul_target con v N m s mod 2 ^ m = s mod 2 ^ m.
Proof.
  intros Hm Hv HN Hs. rewrite mul_target_arith by lia.
  destruct (bit s con =? 0); [done|].
  assert (0 < 2 ^ m) by (apply Z.pow_pos_nonneg; lia).
  rewrite Z.add_comm, Z.mod_add by lia.
  apply Z.mod_mod. lia.
Qed.

Lemma mul_target_range (con v N n s : Z) :
  0 <= n -> 0 <= v -> 0 < N <= 2 ^ n ->
  0 <= s < 2 ^ (n * 3) -> s / 2 ^ (n * 2) < N ->
  0 <= mul_target con v N (n * 2) s < 2 ^ (n * 3) /\
  mul_target con v N (n * 2) s / 2 ^ (n * 2) < N.
Proof.
  intros Hn Hv HN Hs Hhi.
  set (m := n * 2) in *. set (f := mul_target con v N m).
  assert (H2m : 0 < 2 ^ m) by (apply Z.pow_pos_nonneg; lia).
  assert (Hs_hi : 0 <= s / 2 ^ m) by (apply Z.div_pos; lia).
  pose proof (mul_target_hi con v N m s ltac:(lia) Hv ltac:(lia) ltac:(lia)) as Hfhi.
  pose proof (times_mod_range v N (s / 2 ^ m) Hv ltac:(lia) Hs_hi) as Ht.
  pose proof (Z.mod_pos_bound s (2 ^ m) H2m) as Hlo.
  fold f in Hfhi.
  assert (Hf : 0 <= f s).
  { unfold f. rewrite mul_target_arith by lia.
    destruct (bit s con =? 0); [lia|]. nia. }
  assert (Hfhi' : f s / 2 ^ m < N) by (rewrite Hfhi; destruct (bit s con =? 0); lia).
  split; [|done]. split; [done|].
  rewrite pow_split by done. fold m.
  pose proof (Z.div_mod (f s) (2 ^ m) ltac:(lia)) as Hdm.
  pose proof (Z.mod_pos_bound (f s) (2 ^ m) H2m). nia.
Qed.

Lemma mul_target_inj (con v N m s s' : Z) :
  0 <= con < m -> 0 <= v -> 0 < N -> Z.gcd v N = 1 ->
  0 <= s -> 0 <= s' -> s / 2 ^ m < N -> s' / 2 ^ m < N ->
  mul_target con v N m s = mul_target con v N m s' -> s = s'.
Proof.
  intros Hcon Hv HN Hrel Hs Hs' Hhi Hhi' Heq.
  assert (H2m : 0 < 2 ^ m) by (apply Z.pow_pos_nonneg; lia).
  pose proof (mul_target_lo con v N m s ltac:(lia) Hv HN Hs) as Hlo.
  pose proof (mul_target_lo con v N m s' ltac:(lia) Hv HN Hs') as Hlo'.
  rewrite Heq, Hlo' in Hlo.
  pose proof (bit_low s' s con m Hcon Hlo) as Hbit.
  pose proof (mul_target_hi con v N m s ltac:(lia) Hv HN Hs) as Hh.
  pose proof (mul_target_hi con v N m s' ltac:(lia) Hv HN Hs') as Hh'.
  rewrite Heq, Hh', Hbit in Hh.
  assert (Hhieq : s / 2 ^ m = s' / 2 ^ m).
  { destruct (bit s con =? 0); [done|].
    apply (times_mod_inj v N Hv HN Hrel).
    - split; [apply Z.div_pos; lia|done].
    - split; [apply Z.div_pos; lia|done].
    - done. }
  rewrite (Z.div_mod s (2 ^ m)), (Z.div_mod s' (2 ^ m)) by lia.
  by rewrite Hhieq, Hlo.
Qed.

(** ** Scattering amplitudes along an injective index map *)

Lemma sumsq_alter (l : vec) (i : nat) (f : C -> C) :
  (i < length l)%nat ->
  sumsq (alter f i l) = (sumsq l - norm (l !!! i) + norm (f (l !!! i)))%R.
Proof.
  revert i. induction l as [|z l IH]; intros i Hi; [cbn in Hi; lia|].
  destruct i as [|i].
  - cbn. lra.
  - cbn in Hi. specialize (IH i ltac:(lia)).
    change (sumsq (alter f (S i) (z :: l))) with (norm z + sumsq (alter f i l))%R.
    change (sumsq (z :: l)) with (norm z + sumsq l)%R.
    change ((z :: l) !!! S i) with (l !!! i).
    rewrite IH. lra.
Qed.

Lemma vadd_C0 (b : vec) (i : Z) : vadd b i C0 = b.
Proof. apply list_alter_id. intros z. apply Cplus_0_r. Qed.

Lemma sumR_seqZ_S (f : Z -> R) (k : nat) :
  sumR (f <$> seqZ 0 (Z.of_nat (S k)))
  = (sumR (f <$> seqZ 0 (Z.of_nat k)) + f (Z.of_nat k))%R.
Proof. rewrite seqZ_S, fmap_app, sumR_app. cbn. rewrite Z.add_0_l. lra. Qed.

Lemma scatter_inv (f : Z -> Z) (v : vec) (len : Z) (k : nat) :
  Z.of_nat k <= len ->
  (forall s, 0 <= s < len -> vget v s <> C0 -> 0 <= f s < len) ->
  (forall s s', 0 <= s < len -> 0 <= s' < len ->
                vget v s <> C0 -> vget v s' <> C0 -> f s = f s' -> s = s') ->
  let b := foldl (fun b s => vadd b (f s) (vget v s))
                 (vzero len) (seqZ 0 (Z.of_nat k)) in
  length b = Z.to_nat len /\
  sumsq b = sumR ((fun s => norm (vget v s)) <$> seqZ 0 (Z.of_nat k)) /\
  (forall t, 0 <= t < len -> vget b t <> C0 ->
             exists s, 0 <= s < Z.of_nat k /\ vget v s <> C0 /\ f s = t) /\
  (forall s, 0 <= s < Z.of_nat k -> vget v s <> C0 -> vget b (f s) = vget v s).
Proof.
  intros Hk Hrange Hinj.
  induction k as [|k IH]; intros b.
  - subst b. change (seqZ 0 (Z.of_nat 0)) with (@nil Z). cbn [foldl fmap list_fmap sumR].
    repeat split.
    + apply length_vzero.
    + unfold sumsq, vzero. induction (Z.to_nat len) as [|j IHj]; [done|].
      cbn. rewrite norm_C0. cbn in IHj. rewrite IHj. lra.
    + intros t _ Ht. by rewrite vget_vzero in Ht.
    + intros s Hs. lia.
  - subst b. rewrite seqZ_S, foldl_snoc, Z.add_0_l, <- seqZ_S, sumR_seqZ_S.
    destruct IH as (IHlen & IHsum & IHsupp & IHval); [lia|].
    set (b := foldl _ _ _) in *. clearbody b.
    set (s0 := Z.of_nat k) in *.
    assert (Hs0 : 0 <= s0 < len) by lia.
    destruct (C_eq_dec (vget v s0) C0) as [Hz|Hnz].
    { rewrite Hz, vadd_C0, norm_C0, Rplus_0_r.
      repeat split; [done|done| |].
      - intros t Ht Hbt. destruct (IHsupp t Ht Hbt) as (s & Hs & Hvs & Hfs).
        exists s. repeat split; [lia|lia|done|done].
      - intros s Hs Hvs. apply IHval; [|done].
        assert (s <> s0) by (intros ->; done). lia. }
    pose proof (Hrange s0 Hs0 Hnz) as Hf0.
    assert (Hb0 : vget b (f s0) = C0).
    { destruct (C_eq_dec (vget b (f s0)) C0) as [|Hne]; [done|].
      destruct (IHsupp (f s0) Hf0 Hne) as (s & Hs & Hvs & Hfs).
      assert (s = s0) by (apply Hinj; try done; lia). lia. }
    repeat split.
    + by rewrite length_vadd.
    + unfold vadd. rewrite sumsq_alter by lia.
      fold (vget b (f s0)). rewrite Hb0, norm_C0, Cplus_0_l, IHsum. lra.
    + intros t Ht Hbt.
      destruct (decide (t = f s0)) as [->|Hne].
      * exists s0. repeat split; [lia|lia|done].
      * rewrite vget_vadd_ne in Hbt by lia.
        destruct (IHsupp t Ht Hbt) as (s & Hs & Hvs & Hfs).
        exists s. repeat split; [lia|lia|done|done].
    + intros s Hs Hvs.
      destruct (decide (s = s0)) as [->|Hne].
      * rewrite vget_vadd_eq by lia. by rewrite Hb0, Cplus_0_l.
      * assert (f s <> f s0).
        { intros Heq. apply Hne, Hinj; try done; lia. }
        pose proof (Hrange s ltac:(lia) Hvs).
        rewrite vget_vadd_ne by lia. apply IHval; [lia|done].
Qed.

(** ** [mul] on a state supported below [N] *)

Lemma supported_div (N m : Z) (v : vec) :
  0 <= m ->
  supported N m v <->
  (forall s, 0 <= s < Z.of_nat (length v) -> vget v s <> C0 -> s / 2 ^ m < N).
Proof.
  intros Hm. unfold supported.
  split; intros Hs s Hr Hv; specialize (Hs s Hr Hv);
    by rewrite Z.shiftr_div_pow2 in *.
Qed.

Lemma mul_with_facts (v : Z) (st : Qubits.t) (con N n : Z) :
  0 <= n -> Qubits.n st = n * 3 -> well_formed st ->
  0 <= con < n * 2 -> 0 <= v -> 0 < N <= 2 ^ n -> Z.gcd v N = 1 ->
  supported N (n * 2) (Qubits.a st) ->
  let st' := mul_with v st con N in
  Qubits.n st' = n * 3 /\ well_formed st' /\
  sumsq (Qubits.a st') = sumsq (Qubits.a st) /\
  supported N (n * 2) (Qubits.a st') /\
  (forall s, 0 <= s < 2 ^ (n * 3) -> vget (Qubits.a st) s <> C0 ->
             vget (Qubits.a st') (mul_target con v N (n * 2) s)
             = vget (Qubits.a st) s).
Proof.
  intros Hn Hqn [_ Hlen] Hcon Hv HN Hrel Hsupp st'.
  rewrite Hqn in Hlen.
  assert (H2 : 0 < 2 ^ (n * 3)) by (apply Z.pow_pos_nonneg; lia).
  pose proof (proj1 (supported_div N (n * 2) _ ltac:(lia)) Hsupp) as Hsd.
  clear Hsupp. rename Hsd into Hsupp.
  rewrite Hlen, Z2Nat.id in Hsupp by lia.
  subst st'. unfold mul_with. cbn [Qubits.n Qubits.a].
  rewrite Hqn, Z.quot_mul by lia.
  rewrite Z.shiftl_1_l.
  replace (2 ^ (n * 3) - 1 + 1) with (2 ^ (n * 3)) by lia.
  pose proof (scatter_inv (mul_target con v N (n * 2)) (Qubits.a st)
                (2 ^ (n * 3)) (Z.to_nat (2 ^ (n * 3)))) as Hsc.
  rewrite Z2Nat.id in Hsc by lia.
  destruct Hsc as (Hlen' & Hsum & Hsupp' & Hval); [lia| | |].
  { intros s Hs Hvs. apply mul_target_range; try done. by apply Hsupp. }
  { intros s s' Hs Hs' Hvs Hvs'.
    apply mul_target_inj; try done; try lia; by apply Hsupp. }
  set (b := foldl _ _ _) in *. clearbody b.
  split; [done|]. split; [split; cbn [Qubits.n Qubits.a]; [lia|done]|].
  split; [by rewrite Hsum, sumsq_index, Hlen, Z2Nat.id by lia|].
  split; [|done].
  apply (proj2 (supported_div N (n * 2) _ ltac:(lia))).
  rewrite Hlen', Z2Nat.id by lia.
  intros t Ht Hbt. destruct (Hsupp' t Ht Hbt) as (s & Hs & Hvs & <-).
  apply mul_target_range; try done. by apply Hsupp.
Qed.

(** ** Loops that fill a vector entry by entry *)

Lemma foldl_ext {A B} (f g : A -> B -> A) (x : A) (l : list B) :
  (forall a b, b ∈ l -> f a b = g a b) -> foldl f x l = foldl g x l.
Proof.
  revert x. induction l as [|b l IH]; intros x Hfg; [done|].
  cbn. rewrite Hfg by left. apply IH. intros a c Hc. apply Hfg. by right.
Qed.

Lemma tabulate_get (g : Z -> C) (len : Z) (k : nat) :
  Z.of_nat k <= len ->
  let b := foldl (fun b s => vset b s (g s)) (vzero len) (seqZ 0 (Z.of_nat k)) in
  length b = Z.to_nat len /\
  forall t, 0 <= t < len ->
            vget b t = if decide (t < Z.of_nat k) then g t else C0.
Proof.
  induction k as [|k IH]; intros Hk b.
  - subst b. change (seqZ 0 (Z.of_nat 0)) with (@nil Z). cbn [foldl].
    split; [apply length_vzero|]. intros t Ht. rewrite vget_vzero.
    case_decide; [lia|done].
  - subst b. rewrite seqZ_S, foldl_snoc, Z.add_0_l.
    destruct IH as [IHlen IHget]; [lia|].
    set (b := foldl _ _ _) in *. clearbody b.
    split; [by rewrite length_vset|].
    intros t Ht. destruct (decide (t = Z.of_nat k)) as [->|Hne].
    + rewrite vget_vset_eq by lia. case_decide; [done|lia].
    + rewrite vget_vset_ne by lia. rewrite IHget by done.
      repeat case_decide; try lia; done.
Qed.

(** Overwriting the entries at the indices [h 0, h 1, ...]. *)
Lemma overwrite_get (h : Z -> Z) (g : Z -> C) (v : vec) (cnt : Z) (k : nat) :
  Z.of_nat k <= cnt ->
  (forall i, 0 <= i < cnt -> 0 <= h i < Z.of_nat (length v)) ->
  injective_below cnt h ->
  let b := foldl (fun a i => vset a (h i) (g i)) v (seqZ 0 (Z.of_nat k)) in
  length b = length v /\
  (forall i, 0 <= i < Z.of_nat k -> vget b (h i) = g i) /\
  (forall t, 0 <= t -> (forall i, 0 <= i < Z.of_nat k -> h i <> t) ->
             vget b t = vget v t).
Proof.
  intros Hk Hrange Hinj.
  induction k as [|k IH]; intros b.
  - subst b. change (seqZ 0 (Z.of_nat 0)) with (@nil Z). cbn [foldl].
    split; [done|]. split; [intros i Hi; lia|done].
  - subst b. rewrite seqZ_S, foldl_snoc, Z.add_0_l.
    destruct IH as (IHlen & IHhit & IHmiss); [lia|].
    set (b := foldl _ _ _) in *. clearbody b.
    pose proof (Hrange (Z.of_nat k) ltac:(lia)) as Hhk.
    repeat split.
    + by rewrite length_vset.
    + intros i Hi. destruct (decide (i = Z.of_nat k)) as [->|Hne].
      * rewrite vget_vset_eq; [done|lia].
      * pose proof (Hrange i ltac:(lia)).
        assert (h (Z.of_nat k) <> h i).
        { intros Heq. apply Hne. symmetry. apply Hinj; [lia|lia|done]. }
        rewrite vget_vset_ne by lia. apply IHhit. lia.
    + intros t Ht Hmiss.
      rewrite vget_vset_ne; [|lia|lia|apply Hmiss; lia].
      apply IHmiss; [done|]. intros i Hi. apply Hmiss. lia.
Qed.

(** ** [measure] *)

Lemma probs_loop (v : vec) (p : Z) (k : nat) :
  0 <= p ->
  foldl (fun pro s =>
           alter (fun old => (old + norm (vget v s))%R)
                 (Z.to_nat (Z.land (Z.shiftr s p) 1)) pro)
        [0%R; 0%R] (seqZ 0 (Z.of_nat k))
  = [sumR ((fun s => if bit s p =? 0 then norm (vget v s) else 0%R)
             <$> seqZ 0 (Z.of_nat k));
     sumR ((fun s => if bit s p =? 1 then norm (vget v s) else 0%R)
             <$> seqZ 0 (Z.of_nat k))].
Proof.
  intros Hp. induction k as [|k IH]; [done|].
  rewrite seqZ_S, foldl_snoc, IH, Z.add_0_l, <- seqZ_S, !sumR_seqZ_S.
  fold (bit (Z.of_nat k) p).
  destruct (bit_cases (Z.of_nat k) p Hp) as [-> | ->];
    change (Z.to_nat 0) with 0%nat; change (Z.to_nat 1) with 1%nat;
    change (0 =? 0) with true; change (0 =? 1) with false;
    change (1 =? 0) with false; change (1 =? 1) with true;
    cbv beta iota; rewrite Rplus_0_r; reflexivity.
Qed.

Lemma probs_marginal (st : Qubits.t) (p : Z) :
  0 <= Qubits.n st -> 0 <= p ->
  Qubits.probs st p = [marginal st p 0; marginal st p 1].
Proof.
  intros Hn Hp. unfold Qubits.probs, marginal.
  assert (0 < 2 ^ Qubits.n st) by (apply Z.pow_pos_nonneg; lia).
  rewrite Z.shiftl_1_l.
  replace (2 ^ Qubits.n st - 1 + 1) with (2 ^ Qubits.n st) by lia.
  rewrite <- (Z2Nat.id (2 ^ Qubits.n st)) by lia.
  by apply probs_loop.
Qed.

Lemma marginal_nonneg (st : Qubits.t) (p c : Z) : (0 <= marginal st p c)%R.
Proof.
  apply sumR_fmap_nonneg. intros s _.
  destruct (bit s p =? c); [apply norm_nonneg|lra].
Qed.

Lemma marginal_total (st : Qubits.t) (p : Z) :
  well_formed st -> 0 <= p ->
  (marginal st p 0 + marginal st p 1)%R = sumsq (Qubits.a st).
Proof.
  intros [Hn Hlen] Hp.
  assert (0 < 2 ^ Qubits.n st) by (apply Z.pow_pos_nonneg; lia).
  rewrite sumsq_index, Hlen, Z2Nat.id by lia.
  unfold marginal. rewrite <- sumR_fmap_plus.
  apply sumR_fmap_ext. intros s _.
  destruct (bit_cases s p Hp) as [-> | ->]; cbn; lra.
Qed.

(** The state that [measure] leaves, entry by entry. *)
Lemma measure_with_get (u : R) (st : Qubits.t) (p : Z) :
  well_formed st -> 0 <= p ->
  let d := (Qubits.measure_with u st p).1 in
  let st' := (Qubits.measure_with u st p).2 in
  d = (if Rlt_dec u (marginal st p 1) then 1 else 0) /\
  Qubits.n st' = Qubits.n st /\ well_formed st' /\
  forall s, 0 <= s < 2 ^ Qubits.n st ->
    vget (Qubits.a st') s =
      if bit s p =? d
      then Cdivr (vget (Qubits.a st) s) (sqrt (marginal st p d))
      else C0.
Proof.
  intros [Hn Hlen] Hp d st'.
  assert (H2 : 0 < 2 ^ Qubits.n st) by (apply Z.pow_pos_nonneg; lia).
  subst d st'. unfold Qubits.measure_with. cbn [fst snd Qubits.n Qubits.a].
  rewrite probs_marginal by done.
  change ([marginal st p 0; marginal st p 1] !!! 1%nat) with (marginal st p 1).
  set (d := if Rlt_dec u (marginal st p 1) then 1 else 0).
  assert (Hd : [marginal st p 0; marginal st p 1] !!! Z.to_nat d = marginal st p d).
  { subst d. by destruct (Rlt_dec u (marginal st p 1)). }
  rewrite Hd. rewrite Z.shiftl_1_l.
  replace (2 ^ Qubits.n st - 1 + 1) with (2 ^ Qubits.n st) by lia.
  set (g := fun s => if bit s p =? d
                     then Cdivr (vget (Qubits.a st) s) (sqrt (marginal st p d))
                     else C0).
  rewrite (foldl_ext _ (fun b s => vset b s (g s))).
  2:{ intros b s _. unfold g. fold (bit s p).
      destruct (Z.eqb_spec (Z.lxor (bit s p) d) 0) as [Hx|Hx];
        destruct (Z.eqb_spec (bit s p) d) as [He|He]; try done.
      - exfalso. exact (He (proj1 (Z.lxor_eq_0_iff _ _) Hx)).
      - exfalso. exact (Hx (proj2 (Z.lxor_eq_0_iff _ _) He)). }
  pose proof (tabulate_get g (2 ^ Qubits.n st) (Z.to_nat (2 ^ Qubits.n st))) as Htab.
  rewrite Z2Nat.id in Htab by lia.
  destruct (Htab ltac:(lia)) as [Hlen' Hget].
  repeat split; [done..|].
  intros s Hs. rewrite Hget by done. case_decide; [done|lia].
Qed.

Lemma Cdivr_C0 (x : R) : Cdivr C0 x = C0.
Proof. unfold Cdivr, C0. cbn. f_equal; unfold Rdiv; lra. Qed.

Lemma norm_Cdivr (z : C) (c : R) :
  c <> 0%R -> norm (Cdivr z c) = (norm z / (c * c))%R.
Proof. intros Hc. destruct z as [x y]. unfold norm, Cdivr. cbn. by field. Qed.

Lemma unit_of_raw_range (r : Z) :
  0 <= r < 2 ^ 64 -> (0 <= unit_of_raw r < 1)%R.
Proof.
  intros [Hlo Hhi]. unfold unit_of_raw.
  assert (0 < IZR (2 ^ 64))%R by (apply IZR_lt; lia).
  apply IZR_le in Hlo. apply IZR_lt in Hhi.
  split.
  - apply Rmult_le_pos; [done|]. left. by apply Rinv_0_lt_compat.
  - apply (Rmult_lt_reg_r (IZR (2 ^ 64))); [done|].
    unfold Rdiv. rewrite Rmult_assoc, Rinv_l by lra. lra.
Qed.

Lemma measure_unfold (st : Qubits.t) (p : Z) (g : rng) :
  Qubits.measure st p g =
    Some (Qubits.measure_with (unit_of_raw (tape g (pos g))) st p,
          mkRng (tape g) (S (pos g))).
Proof. reflexivity. Qed.

(** The outcome that is drawn has a positive probability. *)
Lemma outcome_positive (u : R) (st : Qubits.t) (p : Z) :
  well_formed st -> 0 <= p -> sumsq (Qubits.a st) = 1%R -> (0 <= u < 1)%R ->
  (0 < marginal st p (Qubits.measure_with u st p).1)%R.
Proof.
  intros Hwf Hp Hunit Hu.
  destruct (measure_with_get u st p Hwf Hp) as (-> & _).
  pose proof (marginal_total st p Hwf Hp) as Htot.
  pose proof (marginal_nonneg st p 0). pose proof (marginal_nonneg st p 1).
  destruct (Rlt_dec u (marginal st p 1)); lra.
Qed.

Lemma measure_with_opposite (u : R) (st : Qubits.t) (p : Z) :
  well_formed st -> 0 <= p ->
  marginal (Qubits.measure_with u st p).2 p (1 - (Qubits.measure_with u st p).1)
  = 0%R.
Proof.
  intros Hwf Hp.
  destruct (measure_with_get u st p Hwf Hp) as (Hd & Hn & _ & Hget).
  set (d := (Qubits.measure_with u st p).1) in *.
  set (st' := (Qubits.measure_with u st p).2) in *.
  unfold marginal. apply sumR_fmap_zero.
  intros s Hs%elem_of_seqZ. rewrite Hn in Hs.
  destruct (Z.eqb_spec (bit s p) (1 - d)) as [Hb|Hb]; [|done].
  rewrite Hget by lia.
  destruct (Z.eqb_spec (bit s p) d) as [Hb'|Hb']; [lia|apply norm_C0].
Qed.

Lemma measure_with_sumsq (u : R) (st : Qubits.t) (p : Z) :
  well_formed st -> 0 <= p ->
  (0 < marginal st p (Qubits.measure_with u st p).1)%R ->
  sumsq (Qubits.a (Qubits.measure_with u st p).2) = 1%R.
Proof.
  intros Hwf Hp Hpos.
  destruct (measure_with_get u st p Hwf Hp) as (_ & Hn & [_ Hlen'] & Hget).
  set (d := (Qubits.measure_with u st p).1) in *.
  set (st' := (Qubits.measure_with u st p).2) in *.
  destruct Hwf as [Hn0 Hlen].
  assert (H2 : 0 < 2 ^ Qubits.n st) by (apply Z.pow_pos_nonneg; lia).
  set (P := marginal st p d) in *.
  assert (Hsq : (sqrt P * sqrt P = P)%R) by (apply sqrt_sqrt; lra).
  assert (Hsqrt : sqrt P <> 0%R) by (apply Rgt_not_eq, sqrt_lt_R0; lra).
  rewrite sumsq_index, Hlen', Hn, Z2Nat.id by lia.
  rewrite (sumR_fmap_ext _
             (fun s => (/ P * (if bit s p =? d
                               then norm (vget (Qubits.a st) s) else 0))%R)).
  - rewrite sumR_fmap_scale. change (/ P * P = 1)%R. apply Rinv_l. lra.
  - intros s Hs%elem_of_seqZ. rewrite Hget by lia.
    destruct (bit s p =? d).
    + rewrite norm_Cdivr, Hsq by done. unfold Rdiv. lra.
    + rewrite norm_C0. lra.
Qed.

(** Measuring only removes amplitudes: what survives was there before
    and agrees with the outcome. *)
Lemma measure_with_support (u : R) (st : Qubits.t) (p s : Z) :
  well_formed st -> 0 <= p -> 0 <= s < 2 ^ Qubits.n st ->
  vget (Qubits.a (Qubits.measure_with u st p).2) s <> C0 ->
  vget (Qubits.a st) s <> C0 /\ bit s p = (Qubits.measure_with u st p).1.
Proof.
  intros Hwf Hp Hs Hne.
  destruct (measure_with_get u st p Hwf Hp) as (_ & _ & _ & Hget).
  rewrite Hget in Hne by done.
  destruct (Z.eqb_spec (bit s p) (Qubits.measure_with u st p).1) as [Hb|Hb];
    [|done].
  split; [|done]. intros Hz. by rewrite Hz, Cdivr_C0 in Hne.
Qed.

(** C4.  On a state of unit norm (amplitudes taken as exact reals)
    [measure(p)] draws [u] in [[0,1)] and returns 1 exactly when
    [u < p1], where [p1 = 1 - p0] and [p0] is the summed squared
    magnitude over the indices whose bit [p] is 0; every amplitude whose
    bit [p] differs from the outcome becomes zero, every other one is
    divided by the square root of the probability of the outcome; the
    probability of the opposite outcome on the new state is exactly 0. *)
Theorem measure_collapses (st : Qubits.t) (p : Z) (g : rng) :
  well_formed st -> 0 <= p < Qubits.n st ->
  sumsq (Qubits.a st) = 1%R -> tape_ok g ->
  let u := unit_of_raw (tape g (pos g)) in
  let p0 := marginal st p 0 in
  let p1 := (1 - p0)%R in
  (0 <= u < 1)%R /\
  exists d st',
    Qubits.measure st p g = Some ((d, st'), mkRng (tape g) (S (pos g))) /\
    (d = 0 \/ d = 1) /\
    (d = 1 <-> (u < p1)%R) /\
    (forall s, 0 <= s < 2 ^ Qubits.n st ->
       vget (Qubits.a st') s =
         if bit s p =? d
         then Cdivr (vget (Qubits.a st) s)
                    (sqrt (if d =? 1 then p1 else p0))
         else C0) /\
    marginal st' p (1 - d) = 0%R.
Proof.
  intros Hwf Hp Hunit Htape u p0 p1.
  assert (Hu : (0 <= u < 1)%R) by apply unit_of_raw_range, Htape.
  split; [done|].
  assert (Hp' : 0 <= p) by lia.
  pose proof (marginal_total st p Hwf Hp') as Htot.
  assert (Hp1 : marginal st p 1 = p1) by (unfold p1, p0; lra).
  destruct (measure_with_get u st p Hwf Hp') as (Hd & _ & _ & Hget).
  pose proof (measure_with_opposite u st p Hwf Hp') as Hopp.
  exists (Qubits.measure_with u st p).1, (Qubits.measure_with u st p).2.
  set (d := (Qubits.measure_with u st p).1) in *.
  set (st' := (Qubits.measure_with u st p).2) in *.
  split; [rewrite measure_unfold; fold u; by rewrite (surjective_pairing (Qubits.measure_with u st p))|].
  rewrite Hp1 in Hd.
  split; [destruct (Rlt_dec u p1); lia|].
  split; [destruct (Rlt_dec u p1); split; (done || lia)|].
  split; [|done].
  intros s Hs. rewrite Hget by done.
  destruct (bit s p =? d); [|done].
  do 2 f_equal. destruct (Z.eqb_spec d 1) as [->|Hd1]; [done|].
  replace d with 0 by (destruct (Rlt_dec u p1); lia). done.
Qed.

(** ** Basis states *)

Lemma sumsq_vzero (len : Z) : sumsq (vzero len) = 0%R.
Proof.
  unfold sumsq, vzero. induction (Z.to_nat len) as [|j IHj]; [done|].
  cbn. rewrite norm_C0. cbn in IHj. rewrite IHj. lra.
Qed.

Lemma sumsq_vset (v : vec) (i : Z) (z : C) :
  0 <= i < Z.of_nat (length v) ->
  sumsq (vset v i z) = (sumsq v - norm (vget v i) + norm z)%R.
Proof.
  intros Hi. unfold vset, vget.
  assert (Hlt : (Z.to_nat i < length v)%nat) by lia.
  revert Hlt. generalize (Z.to_nat i). clear Hi i.
  induction v as [|w v IH]; intros i Hi; [cbn in Hi; lia|].
  destruct i as [|i].
  - cbn. lra.
  - cbn in Hi. specialize (IH i ltac:(lia)).
    change (sumsq (<[S i:=z]> (w :: v))) with (norm w + sumsq (<[i:=z]> v))%R.
    change (sumsq (w :: v)) with (norm w + sumsq v)%R.
    change ((w :: v) !!! S i) with (v !!! i).
    rewrite IH. lra.
Qed.

Lemma norm_C1 : norm C1 = 1%R.
Proof. unfold norm, C1. cbn. lra. Qed.

Lemma init_wf (m : Z) : 0 <= m -> well_formed (Qubits.init m).
Proof.
  intros Hm. split; [done|]. unfold Qubits.init. cbn [Qubits.a Qubits.n].
  by rewrite length_vset, length_vzero, Z.shiftl_1_l.
Qed.

Lemma init_get (m s : Z) :
  0 <= m -> 0 <= s ->
  vget (Qubits.a (Qubits.init m)) s = if decide (s = 0) then C1 else C0.
Proof.
  intros Hm Hs. unfold Qubits.init. cbn [Qubits.a].
  assert (0 < 2 ^ m) by (apply Z.pow_pos_nonneg; lia).
  case_decide as Hz.
  - subst s. rewrite vget_vset_eq; [done|].
    rewrite length_vzero, Z.shiftl_1_l. lia.
  - rewrite vget_vset_ne by lia. apply vget_vzero.
Qed.

Lemma init_sumsq (m : Z) : 0 <= m -> sumsq (Qubits.a (Qubits.init m)) = 1%R.
Proof.
  intros Hm. unfold Qubits.init. cbn [Qubits.a].
  assert (0 < 2 ^ m) by (apply Z.pow_pos_nonneg; lia).
  rewrite sumsq_vset by (rewrite length_vzero, Z.shiftl_1_l; lia).
  rewrite sumsq_vzero, vget_vzero, norm_C0, norm_C1. lra.
Qed.

Lemma init_supported (N m k : Z) :
  0 <= k -> 0 < N -> supported N m (Qubits.a (Qubits.init k)).
Proof.
  intros Hk HN s Hs Hne. rewrite init_get in Hne by lia.
  case_decide as Hz; [|done]. subst s. by rewrite Z.shiftr_0_l.
Qed.

Lemma constant_tape_ok (r : Z) : 0 <= r < 2 ^ 64 -> tape_ok (constant_tape r).
Proof. intros Hr i. exact Hr. Qed.

Lemma measure_collapses_witness :
  well_formed (Qubits.init 1) /\ 0 <= 0 < Qubits.n (Qubits.init 1) /\
  sumsq (Qubits.a (Qubits.init 1)) = 1%R /\ tape_ok (constant_tape 0) /\
  exists d st',
    Qubits.measure (Qubits.init 1) 0 (constant_tape 0)
      = Some ((d, st'), mkRng (tape (constant_tape 0)) 1) /\
    marginal st' 0 (1 - d) = 0%R.
Proof.
  assert (Hwf : well_formed (Qubits.init 1)) by (apply init_wf; lia).
  assert (Hp : 0 <= 0 < Qubits.n (Qubits.init 1)) by (cbn; lia).
  assert (Hn : sumsq (Qubits.a (Qubits.init 1)) = 1%R) by (apply init_sumsq; lia).
  assert (Ht : tape_ok (constant_tape 0)) by (apply constant_tape_ok; lia).
  split; [exact Hwf|]. split; [exact Hp|]. split; [exact Hn|].
  split; [exact Ht|].
  destruct (measure_collapses (Qubits.init 1) 0 (constant_tape 0) Hwf Hp Hn Ht)
    as (_ & d & st' & Hm & _ & _ & _ & Hopp).
  exists d, st'. split; assumption.
Defined.




(** ** [mul] as a whole *)

Lemma mul_on_support (st : Qubits.t) (a N n i : Z) :
  0 <= n -> n * 3 <= 30 -> Qubits.n st = n * 3 -> well_formed st ->
  0 <= i < n * 2 -> 0 <= a -> 1 < N <= 2 ^ n -> Z.gcd a N = 1 ->
  supported N (n * 2) (Qubits.a st) ->
  exists v,
    power a (Z.shiftl 1 i) N = Some v /\ 0 <= v < N /\ Z.gcd v N = 1 /\
    mul st i a N = Some (mul_with v st i N) /\
    Qubits.n (mul_with v st i N) = n * 3 /\
    well_formed (mul_with v st i N) /\
    sumsq (Qubits.a (mul_with v st i N)) = sumsq (Qubits.a st) /\
    supported N (n * 2) (Qubits.a (mul_with v st i N)).
Proof.
  intros Hn Hw Hqn Hwf Hi Ha HN Hgcd Hsupp.
  destruct (power_rel_prime a i N Ha ltac:(lia) ltac:(lia) Hgcd)
    as (v & Hpow & Hv & Hrel).
  exists v. split; [done|]. split; [done|]. split; [done|].
  split; [unfold mul; by rewrite Hpow|].
  destruct (mul_with_facts v st i N n Hn Hqn Hwf Hi ltac:(lia) ltac:(lia)
              Hrel Hsupp) as (H1 & H2 & H3 & H4 & _).
  done.
Qed.

Lemma mul_with_length (v : Z) (st : Qubits.t) (con N : Z) :
  length (Qubits.a (mul_with v st con N))
  = Z.to_nat (Z.shiftl 1 (Z.quot (Qubits.n st) 3 * 3) - 1 + 1).
Proof.
  unfold mul_with. cbn [Qubits.a].
  generalize (seqZ 0 (Z.shiftl 1 (Z.quot (Qubits.n st) 3 * 3) - 1 + 1)).
  intros l. rewrite <- (length_vzero (Z.shiftl 1 (Z.quot (Qubits.n st) 3 * 3) - 1 + 1)).
  generalize (vzero (Z.shiftl 1 (Z.quot (Qubits.n st) 3 * 3) - 1 + 1)).
  induction l as [|s l IH]; intros b; [done|].
  cbn [foldl]. by rewrite IH, length_vadd.
Qed.

(** C3 (counterexample).  For [N = 15], [a = 2] and control index 0
    the multiplier is [v = 4]; the register values 0 and 15 both lie in
    [[0, 2^4)] and both go to 0. *)
Lemma times_mod_merges_register_values :
  Z.gcd 2 15 = 1 /\ power 2 (Z.shiftl 1 0) 15 = Some 4 /\
  0 <= 0 < 2 ^ 4 /\ 0 <= 15 < 2 ^ 4 /\
  times_mod 4 15 0 = times_mod 4 15 15 /\
  ~ bijective_below (2 ^ 4) (times_mod 4 15).
Proof.
  repeat split; try done.
  intros (_ & Hinj & _).
  specialize (Hinj 0 15 ltac:(done) ltac:(done) eq_refl). done.
Qed.

(** C3 (amended).  For a control index [i], a base [a] coprime to
    [N > 1] and [v = power(a, 2^i, N)], the map [value -> value * v mod N]
    is a bijection of the residues [[0, N)]; applied by [mul] to a
    state whose non-zero amplitudes all have a second-register value
    below [N], it leaves the sum of squared magnitudes unchanged. *)
Theorem mul_permutes_residues (st : Qubits.t) (a N n i : Z) :
  0 <= n -> n * 3 <= 30 -> Qubits.n st = n * 3 -> well_formed st ->
  0 <= i < n * 2 -> 0 <= a -> 1 < N <= 2 ^ n -> Z.gcd a N = 1 ->
  supported N (n * 2) (Qubits.a st) ->
  exists v st',
    power a (Z.shiftl 1 i) N = Some v /\
    bijective_below N (times_mod v N) /\
    mul st i a N = Some st' /\
    sumsq (Qubits.a st') = sumsq (Qubits.a st).
Proof.
  intros Hn Hw Hqn Hwf Hi Ha HN Hgcd Hsupp.
  destruct (mul_on_support st a N n i Hn Hw Hqn Hwf Hi Ha HN Hgcd Hsupp)
    as (v & Hpow & Hv & Hrel & Hmul & _ & _ & Hsum & _).
  exists v, (mul_with v st i N).
  split; [done|]. split; [|done].
  apply times_mod_bijective; [lia|lia|done].
Qed.

Lemma mul_permutes_residues_witness :
  exists v st',
    power 2 (Z.shiftl 1 1) 3 = Some v /\
    bijective_below 3 (times_mod v 3) /\
    mul (Qubits.init 6) 1 2 3 = Some st' /\
    sumsq (Qubits.a st') = sumsq (Qubits.a (Qubits.init 6)).
Proof.
  apply (mul_permutes_residues (Qubits.init 6) 2 3 2 1).
  - lia.
  - lia.
  - reflexivity.
  - apply init_wf. lia.
  - lia.
  - lia.
  - simpl. lia.
  - reflexivity.
  - apply init_supported; lia.
Defined.

(** C6 (counterexample).  [merged_state] has unit norm; [mul] with
    control 0, [a = 2], [N = 15] adds its two amplitudes into index 1,
    and the sum of squares of the result exceeds 1. *)
Lemma mul_breaks_norm_off_support :
  sumsq (Qubits.a merged_state) = 1%R /\
  exists st', mul merged_state 0 2 15 = Some st' /\
              (1 < sumsq (Qubits.a st'))%R.
Proof.
  split.
  - unfold merged_state. cbn [Qubits.a].
    rewrite sumsq_vset by (rewrite length_vset, length_vzero; lia).
    rewrite vget_vset_ne, vget_vzero by lia.
    rewrite sumsq_vset by (rewrite length_vzero; lia).
    rewrite sumsq_vzero, vget_vzero, norm_C0.
    unfold norm, Creal. cbn [fst snd]. lra.
  - exists (mul_with 4 merged_state 0 15). split; [reflexivity|].
    rewrite sumsq_index, mul_with_length.
    change (Z.of_nat (Z.to_nat _)) with 4096.
    apply Rlt_le_trans
      with (norm (vget (Qubits.a (mul_with 4 merged_state 0 15)) 1)).
    + assert (Hv : vget (Qubits.a (mul_with 4 merged_state 0 15)) 1
                   = Cplus (Cplus C0 (Creal (3 / 5))) (Creal (4 / 5)))
        by (vm_compute; reflexivity).
      rewrite Hv. unfold norm, Cplus, Creal, C0. cbn [fst snd]. lra.
    + apply (sumR_fmap_ge_term
               (fun s => norm (vget (Qubits.a (mul_with 4 merged_state 0 15)) s))).
      * intros y _. apply norm_nonneg.
      * apply elem_of_seqZ. lia.
Qed.

(** C6 (amended).  In exact arithmetic: [apply_gate] with the Hadamard
    or the X matrix on any qubit of any state keeps the sum of squared
    magnitudes, so a unit-norm state stays one; [mul] does so on every
    unit-norm state whose non-zero amplitudes all have a
    second-register value below [N], for [a] coprime to [N]. *)
Theorem gates_preserve_unit_norm :
  (forall (st : Qubits.t) (p : Z),
      well_formed st -> 0 <= p < Qubits.n st -> sumsq (Qubits.a st) = 1%R ->
      sumsq (Qubits.a (Qubits.apply_gate st H p)) = 1%R /\
      sumsq (Qubits.a (Qubits.apply_gate st X p)) = 1%R) /\
  (forall (st : Qubits.t) (a N n con : Z),
      0 <= n -> n * 3 <= 30 -> Qubits.n st = n * 3 -> well_formed st ->
      0 <= con < n * 2 -> 0 <= a -> 1 < N <= 2 ^ n -> Z.gcd a N = 1 ->
      supported N (n * 2) (Qubits.a st) -> sumsq (Qubits.a st) = 1%R ->
      exists st', mul st con a N = Some st' /\ sumsq (Qubits.a st') = 1%R).
Proof.
  split.
  - intros st p Hwf Hp Hunit.
    rewrite !apply_gate_sumsq by (done || apply unitary2_H || apply unitary2_X).
    done.
  - intros st a N n con Hn Hw Hqn Hwf Hcon Ha HN Hgcd Hsupp Hunit.
    destruct (mul_on_support st a N n con Hn Hw Hqn Hwf Hcon Ha HN Hgcd Hsupp)
      as (v & _ & _ & _ & Hmul & _ & _ & Hsum & _).
    exists (mul_with v st con N). split; [done|]. by rewrite Hsum.
Qed.

Lemma gates_preserve_unit_norm_witness :
  (sumsq (Qubits.a (Qubits.apply_gate (Qubits.init 6) H 0)) = 1%R /\
   sumsq (Qubits.a (Qubits.apply_gate (Qubits.init 6) X 0)) = 1%R) /\
  exists st', mul (Qubits.init 6) 1 2 3 = Some st' /\
              sumsq (Qubits.a st') = 1%R.
Proof.
  destruct gates_preserve_unit_norm as [Hgate Hmul].
  split.
  - apply Hgate.
    + apply init_wf. lia.
    + simpl. lia.
    + apply init_sumsq. lia.
  - apply (Hmul (Qubits.init 6) 2 3 2 1).
    + lia.
    + lia.
    + reflexivity.
    + apply init_wf. lia.
    + lia.
    + lia.
    + simpl. lia.
    + reflexivity.
    + apply init_supported; lia.
    + apply init_sumsq. lia.
Defined.

(** ** Preparing the two registers *)

Lemma shiftr_flip_low (s p m : Z) :
  0 <= p < m -> Z.shiftr (flip s p) m = Z.shiftr s m.
Proof.
  intros Hp. apply Z.bits_inj'. intros i Hi.
  rewrite !Z.shiftr_spec, testbit_flip by lia.
  destruct (Z.eqb_spec p (i + m)); [lia|]. apply xorb_false_r.
Qed.

Lemma shiftr_flip_at (s m : Z) :
  0 <= m -> Z.shiftr (flip s m) m = Z.lxor (Z.shiftr s m) 1.
Proof.
  intros Hm. apply Z.bits_inj'. intros i Hi.
  rewrite Z.lxor_spec, !Z.shiftr_spec, testbit_flip by lia.
  f_equal. change 1 with (2 ^ 0). rewrite Z.pow2_bits_eqb by lia.
  destruct (Z.eqb_spec m (i + m)), (Z.eqb_spec 0 i); lia || done.
Qed.

Lemma register_is_supported (c N m : Z) (v : vec) :
  c < N -> register_is c m v -> supported N m v.
Proof. intros Hc Hreg s Hs Hne. by rewrite (Hreg s Hs Hne). Qed.

Lemma apply_gate_n (st : Qubits.t) (T : Matrix) (p : Z) :
  Qubits.n (Qubits.apply_gate st T p) = Qubits.n st.
Proof. reflexivity. Qed.

Lemma wf_range (st : Qubits.t) (s : Z) :
  well_formed st ->
  0 <= s < Z.of_nat (length (Qubits.a st)) <-> 0 <= s < 2 ^ Qubits.n st.
Proof.
  intros [Hn Hlen]. rewrite Hlen, Z2Nat.id; [done|].
  apply Z.pow_nonneg. lia.
Qed.

Lemma apply_gate_register (st : Qubits.t) (T : Matrix) (p m c : Z) :
  well_formed st -> 0 <= p < m -> p < Qubits.n st ->
  register_is c m (Qubits.a st) ->
  register_is c m (Qubits.a (Qubits.apply_gate st T p)).
Proof.
  intros Hwf Hp Hpn Hreg t Ht Hne.
  pose proof (apply_gate_wf st T p Hwf ltac:(lia)) as Hwf'.
  apply (wf_range _ _ Hwf') in Ht. rewrite apply_gate_n in Ht.
  rewrite apply_gate_get in Hne by (done || lia).
  pose proof (flip_range t p (Qubits.n st) ltac:(lia) Ht) as Hf.
  destruct (Z.eq_dec (Z.shiftr t m) c) as [|Hc]; [done|].
  exfalso. apply Hne. unfold gate_entry.
  assert (Hz : vget (Qubits.a st) t = C0).
  { destruct (C_eq_dec (vget (Qubits.a st) t) C0) as [|Hnz]; [done|].
    destruct Hc. apply Hreg; [by apply wf_range|done]. }
  assert (Hz' : vget (Qubits.a st) (flip t p) = C0).
  { destruct (C_eq_dec (vget (Qubits.a st) (flip t p)) C0) as [|Hnz]; [done|].
    destruct Hc. rewrite <- (shiftr_flip_low t p m Hp).
    apply Hreg; [by apply wf_range|done]. }
  by rewrite Hz, Hz', !Cmult_0_r, Cplus_0_l.
Qed.

Lemma Cmult_C0_l (z : C) : Cmult C0 z = C0.
Proof. Csimpl. f_equal; lra. Qed.

Lemma Cmult_C1_l (z : C) : Cmult C1 z = z.
Proof. Csimpl. f_equal; lra. Qed.

(** The X gate moves each amplitude to the index with bit [p] flipped. *)
Lemma apply_gate_X_get (st : Qubits.t) (p t : Z) :
  well_formed st -> 0 <= p < Qubits.n st -> 0 <= t < 2 ^ Qubits.n st ->
  vget (Qubits.a (Qubits.apply_gate st X p)) t = vget (Qubits.a st) (flip t p).
Proof.
  intros Hwf Hp Ht. rewrite apply_gate_get by done. unfold gate_entry.
  destruct mget_X as (H00 & H01 & H10 & H11).
  destruct (bit_cases t p ltac:(lia)) as [-> | ->].
  - change (1 - 0) with 1. by rewrite H00, H01, Cmult_C0_l, Cmult_C1_l, Cplus_0_l.
  - change (1 - 1) with 0. by rewrite H11, H10, Cmult_C0_l, Cmult_C1_l, Cplus_0_l.
Qed.

(** The loop [for(i = 0; i < k; i++) st.apply_gate(H, i)]. *)
Lemma hadamard_loop (st : Qubits.t) (m : Z) (k : nat) :
  well_formed st -> Z.of_nat k <= m <= Qubits.n st ->
  sumsq (Qubits.a st) = 1%R -> register_is 0 m (Qubits.a st) ->
  let st' := foldl (fun st i => Qubits.apply_gate st H i) st
                   (seqZ 0 (Z.of_nat k)) in
  Qubits.n st' = Qubits.n st /\ well_formed st' /\
  sumsq (Qubits.a st') = 1%R /\ register_is 0 m (Qubits.a st').
Proof.
  intros Hwf Hk Hunit Hreg. induction k as [|k IH]; intros st'.
  - subst st'. change (seqZ 0 (Z.of_nat 0)) with (@nil Z). by cbn [foldl].
  - subst st'. rewrite seqZ_S, foldl_snoc, Z.add_0_l.
    destruct IH as (IHn & IHwf & IHunit & IHreg); [lia|].
    set (st1 := foldl _ _ _) in *. clearbody st1.
    assert (Hp : 0 <= Z.of_nat k < Qubits.n st1) by lia.
    split; [by rewrite apply_gate_n|].
    split; [by apply apply_gate_wf|].
    split; [rewrite apply_gate_sumsq; done || apply unitary2_H|].
    apply apply_gate_register; (done || lia).
Qed.

Lemma prepare_facts (n N : Z) :
  0 < n -> 1 < N ->
  Qubits.n (prepare n (2 * n)) = n * 3 /\
  well_formed (prepare n (2 * n)) /\
  sumsq (Qubits.a (prepare n (2 * n))) = 1%R /\
  register_is 1 (2 * n) (Qubits.a (prepare n (2 * n))) /\
  supported N (n * 2) (Qubits.a (prepare n (2 * n))).
Proof.
  intros Hn HN. unfold prepare.
  set (m := 2 * n). assert (Hmdef : m = 2 * n) by done. clearbody m.
  assert (Hinit : register_is 0 m (Qubits.a (Qubits.init (m + n)))).
  { intros s Hs Hne. rewrite init_get in Hne by lia.
    case_decide as Hz; [|done]. subst s. apply Z.shiftr_0_l. }
  pose proof (hadamard_loop (Qubits.init (m + n)) m (Z.to_nat m)
                (init_wf (m + n) ltac:(lia))) as Hloop.
  rewrite Z2Nat.id in Hloop by lia.
  destruct Hloop as (Hqn & Hwf & Hunit & Hreg);
    [change (Qubits.n (Qubits.init (m + n))) with (m + n); lia
    |apply init_sumsq; lia|done|].
  set (st := foldl _ _ _) in *. clearbody st.
  change (Qubits.n (Qubits.init (m + n))) with (m + n) in Hqn.
  assert (Hm : 0 <= m < Qubits.n st) by lia.
  assert (Hreg1 : register_is 1 m (Qubits.a (Qubits.apply_gate st X m))).
  { intros s Hs Hne.
    pose proof (apply_gate_wf st X m Hwf Hm) as Hwf'.
    apply (wf_range _ _ Hwf') in Hs. rewrite apply_gate_n in Hs.
    rewrite apply_gate_X_get in Hne by done.
    pose proof (flip_range s m _ Hm Hs) as Hf.
    pose proof (Hreg (flip s m) ltac:(by apply wf_range) Hne) as Hc.
    rewrite shiftr_flip_at in Hc by lia.
    exact (proj1 (Z.lxor_eq_0_iff _ _) Hc). }
  split; [rewrite apply_gate_n; lia|].
  split; [by apply apply_gate_wf|].
  split; [rewrite apply_gate_sumsq; done || apply unitary2_X|].
  split; [done|].
  replace (n * 2) with m by lia.
  by apply (register_is_supported 1).
Qed.

(** ** The register widths *)

Lemma find_n_from (fuel : nat) (k N : Z) :
  0 < N -> 0 <= k <= Z.log2_up N -> Z.log2_up N - k < Z.of_nat fuel ->
  find_n fuel k N = Some (Z.log2_up N).
Proof.
  revert k. induction fuel as [|fuel IH]; intros k HN Hk Hfuel; [lia|].
  cbn [find_n]. rewrite Z.shiftl_1_l.
  destruct (Z.ltb_spec (2 ^ k) N) as [Hlt|Hge].
  - apply Z.log2_up_lt_pow2 in Hlt; [|done]. apply IH; lia.
  - apply Z.log2_up_le_pow2 in Hge; [|done]. f_equal. lia.
Qed.

Lemma find_n_spec (N : Z) :
  1 < N <= 1024 ->
  find_n 64 0 N = Some (Z.log2_up N) /\
  0 < Z.log2_up N <= 10 /\ N <= 2 ^ Z.log2_up N.
Proof.
  intros HN.
  assert (Hup : Z.log2_up N <= 10).
  { apply Z.log2_up_le_pow2; [lia|]. change (2 ^ 10) with 1024. lia. }
  pose proof (Z.log2_up_pos N ltac:(lia)) as Hpos.
  split; [apply find_n_from; lia|].
  split; [lia|]. apply Z.log2_up_le_pow2; lia.
Qed.

(** ** The loop of multiplications *)

Lemma mul_loop_S (st : Qubits.t) (a N : Z) (k : nat) :
  mul_loop st a N (Z.of_nat (S k))
  = st' ← mul_loop st a N (Z.of_nat k); mul st' (Z.of_nat k) a N.
Proof. unfold mul_loop. by rewrite seqZ_S, foldl_snoc, Z.add_0_l. Qed.

Lemma mul_loop_facts (st : Qubits.t) (a N n : Z) (k : nat) :
  0 <= n -> n * 3 <= 30 -> Qubits.n st = n * 3 -> well_formed st ->
  0 <= a -> 1 < N <= 2 ^ n -> Z.gcd a N = 1 ->
  supported N (n * 2) (Qubits.a st) -> Z.of_nat k <= n * 2 ->
  exists st',
    mul_loop st a N (Z.of_nat k) = Some st' /\
    Qubits.n st' = n * 3 /\ well_formed st' /\
    sumsq (Qubits.a st') = sumsq (Qubits.a st) /\
    supported N (n * 2) (Qubits.a st').
Proof.
  intros Hn Hw Hqn Hwf Ha HN Hgcd Hsupp.
  induction k as [|k IH]; intros Hk.
  - exists st. split; [reflexivity|]. split; [done|]. split; [done|].
    split; [done|done].
  - destruct IH as (st1 & Hloop & Hqn1 & Hwf1 & Hsum1 & Hsupp1); [lia|].
    destruct (mul_on_support st1 a N n (Z.of_nat k) Hn Hw Hqn1 Hwf1
                ltac:(lia) Ha HN Hgcd Hsupp1)
      as (v & _ & _ & _ & Hmul & Hqn2 & Hwf2 & Hsum2 & Hsupp2).
    exists (mul_with v st1 (Z.of_nat k) N).
    rewrite mul_loop_S, Hloop. cbn [mbind option_bind].
    split; [done|]. split; [done|]. split; [done|].
    split; [congruence|done].
Qed.

(** ** Reading a register *)

Lemma lor_bit_top (r d k : Z) :
  0 <= k -> 0 <= r < 2 ^ k -> d = 0 \/ d = 1 ->
  0 <= Z.lor r (Z.shiftl d k) < 2 ^ (k + 1) /\
  bit (Z.lor r (Z.shiftl d k)) k = d /\
  forall j, 0 <= j < k -> bit (Z.lor r (Z.shiftl d k)) j = bit r j.
Proof.
  intros Hk Hr Hd.
  assert (Hrk : Z.testbit r k = false).
  { apply (Z.bounded_iff_bits_nonneg k r); lia. }
  split; [|split].
  - rewrite Z.lor_comm, lor_shiftl_low by done.
    rewrite Z.pow_add_r by lia. change (2 ^ 1) with 2.
    destruct Hd as [-> | ->]; lia.
  - rewrite bit_testbit, Z.lor_spec, Hrk, Z.shiftl_spec by lia.
    rewrite Z.sub_diag. by destruct Hd as [-> | ->].
  - intros j Hj.
    rewrite !bit_testbit, Z.lor_spec, Z.shiftl_spec_low by lia.
    by rewrite orb_false_r.
Qed.

Lemma measure_range_S (st : Qubits.t) (lo : Z) (k : nat) (g : rng) :
  Qubits.measure_range st lo (Z.of_nat (S k)) g
  = match Qubits.measure_range st lo (Z.of_nat k) g with
    | Some ((r, st1), g1) =>
        let out := Qubits.measure_with (unit_of_raw (tape g1 (pos g1)))
                                       st1 (lo + Z.of_nat k) in
        Some ((Z.lor r (Z.shiftl out.1 (lo + Z.of_nat k - lo)), out.2),
              mkRng (tape g1) (S (pos g1)))
    | None => None
    end.
Proof.
  unfold Qubits.measure_range. rewrite seqZ_S, foldl_snoc.
  set (acc := foldl _ _ _).
  unfold mbind at 1. unfold M_bind.
  destruct (acc g) as [[[r st1] g1]|]; [|done].
  unfold mbind, M_bind. rewrite measure_unfold.
  by destruct (Qubits.measure_with _ st1 (lo + Z.of_nat k)) as [d st2].
Qed.

(** After [k] qubits from [lo] on have been measured: the tape moved
    by [k] draws, the outcomes are the low bits of [r], nothing outside
    the old support carries an amplitude, and what carries one agrees
    with [r] on the measured qubits. *)
Lemma measure_range_facts (st : Qubits.t) (lo N m : Z) (k : nat) (g : rng) :
  well_formed st -> 0 <= lo -> 0 <= m ->
  supported N m (Qubits.a st) ->
  exists r st',
    Qubits.measure_range st lo (Z.of_nat k) g
    = Some ((r, st'), mkRng (tape g) (pos g + k)) /\
    Qubits.n st' = Qubits.n st /\ well_formed st' /\
    supported N m (Qubits.a st') /\
    0 <= r < 2 ^ Z.of_nat k /\
    (forall s, 0 <= s < 2 ^ Qubits.n st -> vget (Qubits.a st') s <> C0 ->
               forall j, 0 <= j < Z.of_nat k -> bit s (lo + j) = bit r j) /\
    (sumsq (Qubits.a st) = 1%R -> tape_ok g -> sumsq (Qubits.a st') = 1%R).
Proof.
  intros Hwf Hlo Hm Hsupp. induction k as [|k IH].
  - exists 0, st. rewrite Nat.add_0_r. destruct g as [tp ps].
    split; [done|]. split; [done|]. split; [done|]. split; [done|].
    split; [done|]. split; [|done]. intros s _ _ j Hj. lia.
  - destruct IH as (r & st1 & Hrun & Hqn & Hwf1 & Hsupp1 & Hr & Hbits & Hunit).
    rewrite measure_range_S, Hrun. cbn [tape pos].
    set (u := unit_of_raw (tape g (pos g + k))).
    set (p := lo + Z.of_nat k).
    destruct (measure_with_get u st1 p Hwf1 ltac:(lia)) as (Hd & Hqn2 & Hwf2 & Hget).
    set (d := (Qubits.measure_with u st1 p).1) in *.
    set (st2 := (Qubits.measure_with u st1 p).2) in *.
    assert (Hd01 : d = 0 \/ d = 1)
      by (rewrite Hd; destruct (Rlt_dec u (marginal st1 p 1)); auto).
    replace (p - lo) with (Z.of_nat k) by lia.
    destruct (lor_bit_top r d (Z.of_nat k) ltac:(lia) Hr Hd01)
      as (Hr' & Htop & Hlow).
    exists (Z.lor r (Z.shiftl d (Z.of_nat k))), st2.
    split; [cbv zeta; do 2 f_equal; f_equal; lia|].
    split; [congruence|]. split; [done|].
    assert (Hsurv : forall s, 0 <= s < 2 ^ Qubits.n st ->
                vget (Qubits.a st2) s <> C0 ->
                vget (Qubits.a st1) s <> C0 /\ bit s p = d).
    { intros s Hs Hne. apply measure_with_support; try done; [lia|congruence]. }
    split.
    { intros s Hs Hne. apply (wf_range _ _ Hwf2) in Hs.
      rewrite Hqn2, Hqn in Hs.
      destruct (Hsurv s Hs Hne) as [Hne1 _].
      apply Hsupp1; [|done]. apply wf_range; [done|congruence]. }
    split; [by rewrite Nat2Z.inj_succ, <- Z.add_1_r|].
    split.
    { intros s Hs Hne j Hj. destruct (Hsurv s Hs Hne) as [Hne1 Hbit].
      destruct (decide (j = Z.of_nat k)) as [->|Hjk].
      - by rewrite Htop.
      - rewrite Hlow by lia. apply Hbits; [done|done|lia]. }
    intros Hunit0 Htape.
    specialize (Hunit Hunit0 Htape).
    apply measure_with_sumsq; [done|lia|].
    apply outcome_positive; [done|lia|done|].
    apply unit_of_raw_range, Htape.
Qed.

(** ** The Fourier step writes one block only *)

Lemma block_index (i t m : Z) :
  0 <= m -> 0 <= i < 2 ^ m ->
  Z.lor i (Z.shiftl t m) = t * 2 ^ m + i.
Proof. intros Hm Hi. by rewrite Z.lor_comm, lor_shiftl_low. Qed.

Lemma QFT_facts (st : Qubits.t) (m t : Z) (rev : list Z) :
  well_formed st -> 0 <= m -> 0 <= t -> (t + 1) * 2 ^ m <= 2 ^ Qubits.n st ->
  Qubits.n (QFT st m t rev) = Qubits.n st /\
  well_formed (QFT st m t rev) /\
  forall s, 0 <= s < 2 ^ Qubits.n st -> Z.shiftr s m <> t ->
            vget (Qubits.a (QFT st m t rev)) s = vget (Qubits.a st) s.
Proof.
  intros [Hn Hlen] Hm Ht Hfit.
  assert (H2m : 0 < 2 ^ m) by (apply Z.pow_pos_nonneg; lia).
  assert (H2n : 0 < 2 ^ Qubits.n st) by (apply Z.pow_pos_nonneg; lia).
  unfold QFT. cbn [Qubits.n Qubits.a]. rewrite Z.shiftl_1_l.
  set (buf := butterflies _ _). clearbody buf.
  set (pr := foldl _ 0%R _). clearbody pr.
  pose proof (overwrite_get (fun i => Z.lor i (Z.shiftl t m))
                (fun i => Cdivr (vget buf i) pr) (Qubits.a st)
                (2 ^ m) (Z.to_nat (2 ^ m))) as Hover.
  rewrite Z2Nat.id in Hover by lia.
  destruct Hover as (Hlen' & _ & Hmiss); [lia| | |].
  { intros i Hi. rewrite block_index, Hlen, Z2Nat.id by lia. nia. }
  { intros x y Hx Hy. rewrite !block_index by lia. lia. }
  set (a' := foldl _ (Qubits.a st) _) in *. clearbody a'.
  split; [done|].
  split; [split; cbn [Qubits.n Qubits.a]; [done|congruence]|].
  intros s Hs Hne. apply Hmiss; [lia|].
  intros i Hi Heq. apply Hne. rewrite <- Heq, block_index by lia.
  rewrite Z.shiftr_div_pow2, Z.add_comm, Z.div_add by lia.
  rewrite Z.div_small by lia. lia.
Qed.

Lemma QFT_supported (st : Qubits.t) (N m t : Z) (rev : list Z) :
  well_formed st -> 0 <= m -> 0 <= t < N ->
  (t + 1) * 2 ^ m <= 2 ^ Qubits.n st ->
  supported N m (Qubits.a st) ->
  supported N m (Qubits.a (QFT st m t rev)).
Proof.
  intros Hwf Hm Ht Hfit Hsupp s Hs Hne.
  destruct (QFT_facts st m t rev Hwf Hm ltac:(lia) Hfit) as (Hqn & Hwf' & Hsame).
  apply (wf_range _ _ Hwf') in Hs. rewrite Hqn in Hs.
  destruct (Z.eq_dec (Z.shiftr s m) t) as [->|Hst]; [lia|].
  rewrite Hsame in Hne by done.
  apply Hsupp; [by apply wf_range|done].
Qed.

(** ** The measured value of the second register *)

Lemma sumsq_nonzero_entry (v : vec) :
  sumsq v <> 0%R ->
  exists s, 0 <= s < Z.of_nat (length v) /\ vget v s <> C0.
Proof.
  induction v as [|z v IH]; intros Hne; [by destruct Hne|].
  change (sumsq (z :: v)) with (norm z + sumsq v)%R in Hne.
  destruct (C_eq_dec z C0) as [->|Hz].
  - rewrite norm_C0, Rplus_0_l in Hne.
    destruct (IH Hne) as (s & Hs & Hnz).
    exists (s + 1). split; [cbn [length]; lia|].
    unfold vget in *. replace (Z.to_nat (s + 1)) with (S (Z.to_nat s)) by lia.
    done.
  - exists 0. split; [cbn [length]; lia|done].
Qed.

(** A unit-norm state that agrees with [t] on the [n] measured qubits
    of the second register holds the value [t] there, so [t < N]. *)
Lemma measured_value_below (st : Qubits.t) (N m n t : Z) :
  well_formed st -> 0 <= m -> 0 <= n -> Qubits.n st = m + n ->
  sumsq (Qubits.a st) = 1%R -> supported N m (Qubits.a st) ->
  0 <= t < 2 ^ n ->
  (forall s, 0 <= s < 2 ^ Qubits.n st -> vget (Qubits.a st) s <> C0 ->
             forall j, 0 <= j < n -> bit s (m + j) = bit t j) ->
  t < N.
Proof.
  intros Hwf Hm Hn Hqn Hunit Hsupp Ht Hbits.
  destruct (sumsq_nonzero_entry (Qubits.a st)) as (s & Hs & Hnz); [lra|].
  pose proof (Hsupp s Hs Hnz) as Hlt.
  apply (wf_range _ _ Hwf) in Hs.
  specialize (Hbits s Hs Hnz).
  assert (H2m : 0 < 2 ^ m) by (apply Z.pow_pos_nonneg; lia).
  assert (Hhi : 0 <= Z.shiftr s m < 2 ^ n).
  { rewrite Z.shiftr_div_pow2 by done. split; [apply Z.div_pos; lia|].
    apply Z.div_lt_upper_bound; [lia|].
    rewrite <- Z.pow_add_r, <- Hqn by lia. lia. }
  replace t with (Z.shiftr s m); [done|].
  apply Z.bits_inj'. intros j Hj.
  destruct (decide (j < n)) as [Hjn|Hjn].
  - specialize (Hbits j ltac:(lia)).
    rewrite !bit_testbit in Hbits by lia.
    rewrite Z.shiftr_spec by done. rewrite (Z.add_comm j m).
    by destruct (Z.testbit s (m + j)), (Z.testbit t j).
  - rewrite (proj1 (Z.bounded_iff_bits_nonneg n (Z.shiftr s m) Hn ltac:(lia))
               ltac:(lia) j) by lia.
    rewrite (proj1 (Z.bounded_iff_bits_nonneg n t Hn ltac:(lia))
               ltac:(lia) j) by lia.
    done.
Qed.

(** ** One attempt, stage by stage *)

Lemma shor_attempt_stages (a N n m t aux : Z) (st_m st_t st_f : Qubits.t)
      (g g_t g_f : rng) :
  m = 2 * n ->
  find_n 64 0 N = Some n ->
  mul_loop (prepare n m) a N m = Some st_m ->
  Qubits.measure_range st_m m n g = Some ((t, st_t), g_t) ->
  Qubits.measure_range (QFT st_t m t (fill_rev m)) 0 m g_t
  = Some ((aux, st_f), g_f) ->
  shor_attempt a N g = extract_period a N aux m g_f.
Proof.
  intros -> Hn Hmul Hread2 Hread1.
  unfold shor_attempt, extract_period.
  unfold mbind at 1. unfold M_bind at 1. unfold lift at 1. rewrite Hn.
  unfold mbind at 1. unfold M_bind at 1. unfold lift at 1. rewrite Hmul.
  unfold mbind at 1. unfold M_bind at 1. rewrite Hread2.
  unfold mbind at 1. unfold M_bind at 1. rewrite Hread1.
  reflexivity.
Qed.

(** C10.  In one attempt of [shor_quantum_part] (amplitudes as exact
    reals, [a] coprime to [N]): the X gate leaves the second register
    at the value [1]; after the X gate, after each of the
    [m] multiplications, after each measurement of the second register,
    after the Fourier step and after each measurement of the first
    register, every non-zero amplitude sits at an index whose second
    register is below [N].  At each multiplication no two indices that
    carry an amplitude have the same target, every amplitude arrives
    unchanged at its target, and the sum of squares is kept. *)
Theorem shor_support_invariant (a N : Z) (g : rng) :
  1 < N <= 1024 -> 0 <= a -> Z.gcd a N = 1 -> tape_ok g ->
  exists n st_m t st_t g_t aux st_f g_f,
    let m := 2 * n in
    find_n 64 0 N = Some n /\
    register_is 1 m (Qubits.a (prepare n m)) /\
    supported N m (Qubits.a (prepare n m)) /\
    (forall k, 0 <= k <= m ->
       exists st_k, mul_loop (prepare n m) a N k = Some st_k /\
                    supported N m (Qubits.a st_k) /\
                    sumsq (Qubits.a st_k) = 1%R) /\
    (forall i st_i,
       0 <= i < m -> mul_loop (prepare n m) a N i = Some st_i ->
       exists v,
         power a (Z.shiftl 1 i) N = Some v /\
         mul st_i i a N = Some (mul_with v st_i i N) /\
         (forall s s', 0 <= s < 2 ^ (n * 3) -> 0 <= s' < 2 ^ (n * 3) ->
            vget (Qubits.a st_i) s <> C0 -> vget (Qubits.a st_i) s' <> C0 ->
            mul_target i v N m s = mul_target i v N m s' -> s = s') /\
         (forall s, 0 <= s < 2 ^ (n * 3) -> vget (Qubits.a st_i) s <> C0 ->
            vget (Qubits.a (mul_with v st_i i N)) (mul_target i v N m s)
            = vget (Qubits.a st_i) s) /\
         sumsq (Qubits.a (mul_with v st_i i N)) = sumsq (Qubits.a st_i)) /\
    mul_loop (prepare n m) a N m = Some st_m /\
    (forall k, 0 <= k <= n ->
       exists r st' g',
         Qubits.measure_range st_m m k g = Some ((r, st'), g') /\
         supported N m (Qubits.a st')) /\
    Qubits.measure_range st_m m n g = Some ((t, st_t), g_t) /\
    0 <= t < N /\
    supported N m (Qubits.a (QFT st_t m t (fill_rev m))) /\
    (forall k, 0 <= k <= m ->
       exists r st' g',
         Qubits.measure_range (QFT st_t m t (fill_rev m)) 0 k g_t
         = Some ((r, st'), g') /\
         supported N m (Qubits.a st')) /\
    Qubits.measure_range (QFT st_t m t (fill_rev m)) 0 m g_t
    = Some ((aux, st_f), g_f) /\
    shor_attempt a N g = extract_period a N aux m g_f.
Proof.
  intros HN Ha Hgcd Htape.
  destruct (find_n_spec N HN) as (Hfind & Hn & HNn).
  set (n := Z.log2_up N) in *. clearbody n.
  assert (Hmn : n * 2 = 2 * n) by lia.
  destruct (prepare_facts n N ltac:(lia) ltac:(lia))
    as (Hqn0 & Hwf0 & Hunit0 & Hreg0 & Hsupp0).
  rewrite <- Hmn in Hqn0, Hwf0, Hunit0, Hreg0, Hsupp0.
  set (st0 := prepare n (n * 2)) in *.
  assert (Hmuls : forall k : nat, Z.of_nat k <= n * 2 ->
            exists st', mul_loop st0 a N (Z.of_nat k) = Some st' /\
              Qubits.n st' = n * 3 /\ well_formed st' /\
              sumsq (Qubits.a st') = 1%R /\
              supported N (n * 2) (Qubits.a st')).
  { intros k Hk.
    destruct (mul_loop_facts st0 a N n k ltac:(lia) ltac:(lia) Hqn0 Hwf0 Ha
                ltac:(lia) Hgcd Hsupp0 Hk)
      as (st' & H1 & H2 & H3 & H4 & H5).
    exists st'. rewrite H4. done. }
  destruct (Hmuls (Z.to_nat (n * 2)) ltac:(lia))
    as (st_m & Hloop_m & Hqn_m & Hwf_m & Hunit_m & Hsupp_m).
  rewrite Z2Nat.id in Hloop_m by lia.
  assert (Hread2 : forall k : nat, Z.of_nat k <= n ->
            exists r st',
              Qubits.measure_range st_m (n * 2) (Z.of_nat k) g
              = Some ((r, st'), mkRng (tape g) (pos g + k)) /\
              Qubits.n st' = n * 3 /\ well_formed st' /\
              supported N (n * 2) (Qubits.a st') /\
              0 <= r < 2 ^ Z.of_nat k /\
              (forall s, 0 <= s < 2 ^ (n * 3) -> vget (Qubits.a st') s <> C0 ->
                 forall j, 0 <= j < Z.of_nat k -> bit s (n * 2 + j) = bit r j) /\
              sumsq (Qubits.a st') = 1%R).
  { intros k Hk.
    destruct (measure_range_facts st_m (n * 2) N (n * 2) k g Hwf_m
                ltac:(lia) ltac:(lia) Hsupp_m)
      as (r & st' & H1 & H2 & H3 & H4 & H5 & H6 & H7).
    exists r, st'. rewrite Hqn_m in *. repeat (split; [done|]). by apply H7. }
  destruct (Hread2 (Z.to_nat n) ltac:(lia))
    as (t & st_t & Hrun_t & Hqn_t & Hwf_t & Hsupp_t & Ht & Hbits_t & Hunit_t).
  rewrite Z2Nat.id in Hrun_t, Ht, Hbits_t by lia.
  set (g_t := mkRng (tape g) (pos g + Z.to_nat n)) in *.
  assert (HtN : t < N).
  { apply (measured_value_below st_t N (n * 2) n t); try done; try lia.
    by rewrite Hqn_t. }
  assert (H2n : 0 < 2 ^ n) by (apply Z.pow_pos_nonneg; lia).
  assert (Hfit : (t + 1) * 2 ^ (n * 2) <= 2 ^ Qubits.n st_t).
  { rewrite Hqn_t, pow_split by lia.
    assert (0 < 2 ^ (n * 2)) by (apply Z.pow_pos_nonneg; lia). nia. }
  set (st_q := QFT st_t (n * 2) t (fill_rev (n * 2))).
  destruct (QFT_facts st_t (n * 2) t (fill_rev (n * 2)) Hwf_t ltac:(lia)
              ltac:(lia) Hfit) as (Hqn_q & Hwf_q & _).
  pose proof (QFT_supported st_t N (n * 2) t (fill_rev (n * 2)) Hwf_t
                ltac:(lia) ltac:(lia) Hfit Hsupp_t) as Hsupp_q.
  fold st_q in Hqn_q, Hwf_q, Hsupp_q.
  assert (Hread1 : forall k : nat,
            exists r st',
              Qubits.measure_range st_q 0 (Z.of_nat k) g_t
              = Some ((r, st'), mkRng (tape g_t) (pos g_t + k)) /\
              supported N (n * 2) (Qubits.a st')).
  { intros k.
    destruct (measure_range_facts st_q 0 N (n * 2) k g_t Hwf_q
                ltac:(lia) ltac:(lia) Hsupp_q)
      as (r & st' & H1 & _ & _ & H4 & _).
    by exists r, st'. }
  destruct (Hread1 (Z.to_nat (n * 2))) as (aux & st_f & Hrun_f & _).
  rewrite Z2Nat.id in Hrun_f by lia.
  exists n, st_m, t, st_t, g_t, aux, st_f,
    (mkRng (tape g_t) (pos g_t + Z.to_nat (n * 2))).
  cbv zeta. rewrite <- !Hmn. fold st0. fold st_q.
  split; [done|]. split; [done|]. split; [done|].
  split.
  { intros k Hk. destruct (Hmuls (Z.to_nat k) ltac:(lia))
      as (st' & H1 & _ & _ & H4 & H5).
    rewrite Z2Nat.id in H1 by lia. by exists st'. }
  split.
  { intros i st_i Hi Hloop_i.
    destruct (Hmuls (Z.to_nat i) ltac:(lia)) as (st' & H1 & H2 & H3 & H4 & H5).
    rewrite Z2Nat.id in H1 by lia.
    assert (st' = st_i) as -> by congruence.
    destruct (mul_on_support st_i a N n i ltac:(lia) ltac:(lia) H2 H3
                ltac:(lia) Ha ltac:(lia) Hgcd H5)
      as (v & Hpow & Hv & Hrel & Hmul & _).
    destruct (mul_with_facts v st_i i N n ltac:(lia) H2 H3 ltac:(lia)
                ltac:(lia) ltac:(lia) Hrel H5) as (_ & _ & Hsum & _ & Hval).
    exists v. split; [done|]. split; [done|].
    split; [|split; [done|done]].
    intros s s' Hs Hs' Hnz Hnz'.
    pose proof (proj1 (supported_div N (n * 2) _ ltac:(lia)) H5) as Hdiv.
    apply mul_target_inj; try done; try lia.
    - apply Hdiv; [|done]. apply wf_range; [done|]. by rewrite H2.
    - apply Hdiv; [|done]. apply wf_range; [done|]. by rewrite H2. }
  split; [done|].
  split.
  { intros k Hk. destruct (Hread2 (Z.to_nat k) ltac:(lia))
      as (r & st' & H1 & _ & _ & H4 & _).
    rewrite Z2Nat.id in H1 by lia. by exists r, st', (mkRng (tape g) (pos g + Z.to_nat k)). }
  split; [done|]. split; [lia|]. split; [done|].
  split.
  { intros k Hk. destruct (Hread1 (Z.to_nat k)) as (r & st' & H1 & H4).
    rewrite Z2Nat.id in H1 by lia.
    by exists r, st', (mkRng (tape g_t) (pos g_t + Z.to_nat k)). }
  split; [done|].
  by apply (shor_attempt_stages a N n (n * 2) t aux st_m st_t st_f g g_t).
Qed.

Lemma shor_support_invariant_witness :
  exists n st_m t st_t g_t,
    find_n 64 0 3 = Some n /\
    register_is 1 (2 * n) (Qubits.a (prepare n (2 * n))) /\
    supported 3 (2 * n) (Qubits.a (prepare n (2 * n))) /\
    mul_loop (prepare n (2 * n)) 2 3 (2 * n) = Some st_m /\
    Qubits.measure_range st_m (2 * n) n (constant_tape 0)
    = Some ((t, st_t), g_t) /\
    0 <= t < 3 /\
    supported 3 (2 * n)
              (Qubits.a (QFT st_t (2 * n) t (fill_rev (2 * n)))).
Proof.
  destruct (shor_support_invariant 2 3 (constant_tape 0))
    as (n & st_m & t & st_t & g_t & aux & st_f & g_f & Hall).
  - lia.
  - lia.
  - reflexivity.
  - apply constant_tape_ok. lia.
  - cbv zeta in Hall.
    destruct Hall as (H1 & Hreg & H2 & _ & _ & H5 & _ & H7 & H8 & H9 & _).
    exists n, st_m, t, st_t, g_t.
    split; [exact H1|]. split; [exact Hreg|].
    split; [exact H2|]. split; [exact H5|].
    split; [exact H7|]. split; [exact H8|exact H9].
Defined.

(** ** The continued-fraction search terminates *)

Lemma convergent_nonneg (frac : list Z) (x : Z) :
  Forall (fun f => 0 <= f) frac -> 0 <= x ->
  0 <= (convergent frac x).1 /\ 0 <= (convergent frac x).2.
Proof.
  intros Hfrac Hx. unfold convergent.
  generalize (reverse (seqZ 0 (Z.of_nat (length frac) - 1))). intros idx.
  assert (Hinit : 0 <= (x, 1).1 /\ 0 <= (x, 1).2) by (cbn; lia).
  revert Hinit. generalize (x, 1). clear x Hx.
  induction idx as [|i idx IH]; intros xy Hxy; [done|].
  cbn [foldl]. apply IH. cbn [fst snd].
  assert (0 <= frac !!! Z.to_nat i).
  { destruct (frac !! Z.to_nat i) as [f|] eqn:Hf.
    - rewrite (list_lookup_total_correct _ _ _ Hf).
      by apply (Forall_lookup_1 _ _ _ _ Hfrac Hf).
    - by rewrite list_lookup_total_alt, Hf. }
  nia.
Qed.

Lemma cf_loop_total (fuel : nat) (a N p q : Z) (frac tested : list Z) :
  0 <= a -> 0 < N < 2 ^ 63 -> 0 <= p -> 0 <= q -> q < Z.of_nat fuel ->
  Forall (fun f => 0 <= f) frac ->
  exists tested' r,
    cf_loop fuel a N p q frac tested = Some (tested', r) /\
    match r with Some x => 0 < x < N | None => True end.
Proof.
  intros Ha HN. revert p q frac tested.
  induction fuel as [|fuel IH]; intros p q frac tested Hp Hq Hfuel Hfrac; [lia|].
  cbn [cf_loop].
  destruct (Z.eqb_spec q 0) as [->|Hq0]; [by exists tested, None|].
  assert (Hquot : 0 <= Z.quot p q) by (apply Z.quot_pos; lia).
  assert (Hfrac' : Forall (fun f => 0 <= f) (frac ++ [Z.quot p q])).
  { apply Forall_app. split; [done|]. by apply Forall_singleton. }
  destruct (convergent_nonneg _ _ Hfrac' Hquot) as [Hx _].
  set (x := (convergent (frac ++ [Z.quot p q]) (Z.quot p q)).1) in *.
  clearbody x.
  pose proof (Z.rem_bound_pos p q Hp ltac:(lia)) as Hrem.
  destruct (Z.leb_spec N x) as [HNx|HNx]; [by eexists _, None|].
  destruct (Z.eqb_spec x 0) as [Hx0|Hx0]; [apply IH; (done || lia)|].
  rewrite power_closed_form by lia. cbn [mbind option_bind].
  destruct (_ =? 1); [|apply IH; (done || lia)].
  eexists _, (Some x). split; [done|lia].
Qed.

(** ** One attempt always completes *)

Lemma tape_ok_pos (tp : nat -> Z) (p q : nat) :
  tape_ok (mkRng tp p) -> tape_ok (mkRng tp q).
Proof. intros H i. exact (H i). Qed.

Lemma shor_attempt_total (a N : Z) (g : rng) :
  1 < N <= 1024 -> 0 <= a -> Z.gcd a N = 1 -> tape_ok g ->
  exists r,
    shor_attempt a N g
    = Some (r, mkRng (tape g) (pos g + Z.to_nat (3 * Z.log2_up N))) /\
    match r with Some x => 0 < x < N | None => True end.
Proof.
  intros HN Ha Hgcd Htape.
  destruct (find_n_spec N HN) as (Hfind & Hn & HNn).
  set (n := Z.log2_up N) in *. clearbody n.
  destruct (prepare_facts n N ltac:(lia) ltac:(lia))
    as (Hqn0 & Hwf0 & Hunit0 & _ & Hsupp0).
  replace (2 * n) with (n * 2) in * by lia.
  destruct (mul_loop_facts (prepare n (n * 2)) a N n (Z.to_nat (n * 2))
              ltac:(lia) ltac:(lia) Hqn0 Hwf0 Ha ltac:(lia) Hgcd Hsupp0
              ltac:(lia))
    as (st_m & Hloop & Hqn_m & Hwf_m & _ & Hsupp_m).
  rewrite Z2Nat.id in Hloop by lia.
  destruct (measure_range_facts st_m (n * 2) N (n * 2) (Z.to_nat n) g Hwf_m
              ltac:(lia) ltac:(lia) Hsupp_m)
    as (t & st_t & Hrun_t & Hqn_t & Hwf_t & _ & Ht & _).
  rewrite Z2Nat.id in Hrun_t, Ht by lia.
  assert (Hfit : (t + 1) * 2 ^ (n * 2) <= 2 ^ Qubits.n st_t).
  { rewrite Hqn_t, Hqn_m, pow_split by lia.
    assert (0 < 2 ^ (n * 2)) by (apply Z.pow_pos_nonneg; lia). nia. }
  destruct (QFT_facts st_t (n * 2) t (fill_rev (n * 2)) Hwf_t ltac:(lia)
              ltac:(lia) Hfit) as (_ & Hwf_q & _).
  destruct (QFT_facts st_t (n * 2) t (fill_rev (n * 2)) Hwf_t ltac:(lia)
              ltac:(lia) Hfit) as (Hqn_q & _ & _).
  destruct (measure_range_facts (QFT st_t (n * 2) t (fill_rev (n * 2))) 0
              (2 ^ (n * 3)) 0
              (Z.to_nat (n * 2)) (mkRng (tape g) (pos g + Z.to_nat n)) Hwf_q
              ltac:(lia) ltac:(lia))
    as (aux & st_f & Hrun_f & _ & _ & _ & Haux & _).
  { intros s Hs _. rewrite Z.shiftr_0_r.
    apply (wf_range _ _ Hwf_q) in Hs. rewrite Hqn_q, Hqn_t, Hqn_m in Hs. lia. }
  rewrite Z2Nat.id in Hrun_f, Haux by lia. cbn [tape pos] in Hrun_f.
  rewrite (shor_attempt_stages a N n (n * 2) t aux st_m st_t st_f g _ _
             ltac:(lia) Hfind Hloop Hrun_t Hrun_f).
  unfold extract_period, cf_search.
  assert (H2m : 0 < 2 ^ (n * 2)) by (apply Z.pow_pos_nonneg; lia).
  assert (HN63 : 0 < N < 2 ^ 63)
    by (change (2 ^ 63) with 9223372036854775808; lia).
  assert (Hq : 0 <= Z.shiftl 1 (n * 2)) by (rewrite Z.shiftl_1_l; lia).
  destruct (cf_loop_total (S (Z.to_nat (Z.shiftl 1 (n * 2)))) a N aux
              (Z.shiftl 1 (n * 2)) [] [] Ha HN63 ltac:(lia) Hq ltac:(lia)
              (Forall_nil_2 _))
    as (tested & r & Hcf & Hr).
  unfold mbind, M_bind, lift. rewrite Hcf. cbn [snd].
  exists r. split; [|done].
  unfold mret, M_ret. do 3 f_equal. lia.
Qed.

(** ** The ten attempts *)

Lemma shor_attempts_run (k : nat) (a N : Z) (g : rng) :
  1 < N <= 1024 -> 0 <= a -> Z.gcd a N = 1 -> tape_ok g ->
  exists r j,
    shor_attempts k a N g
    = Some (r, mkRng (tape g) (pos g + j * draws_per_attempt N)) /\
    (j <= k)%nat /\ (r = 0 -> j = k) /\ (r <> 0 -> (1 <= j)%nat) /\
    0 <= r < N.
Proof.
  intros HN Ha Hgcd. revert g.
  induction k as [|k IH]; intros g Htape.
  - exists 0, 0%nat. cbn [shor_attempts]. destruct g as [tp ps]. cbn [tape pos].
    rewrite Nat.mul_0_l, Nat.add_0_r. repeat split; (done || lia).
  - destruct (shor_attempt_total a N g HN Ha Hgcd Htape) as (r & Hrun & Hr).
    cbn [shor_attempts]. unfold mbind, M_bind. rewrite Hrun.
    fold (draws_per_attempt N).
    destruct r as [x|].
    + exists x, 1%nat. rewrite Nat.mul_1_l.
      repeat split; (done || lia).
    + destruct (IH (mkRng (tape g) (pos g + draws_per_attempt N)))
        as (r & j & Hrest & Hj & Hzero & Hnz & Hr').
      { destruct g as [tp ps]. by apply (tape_ok_pos tp ps). }
      exists r, (S j). rewrite Hrest. cbn [tape pos].
      split; [do 3 f_equal; lia|]. repeat split; lia.
Qed.

(** ** The outer loop of [factor] *)

Lemma power_total (x b n : Z) :
  0 <= x -> 0 < n -> 0 <= b < 2 ^ 63 -> exists v, power x b n = Some v.
Proof.
  intros Hx Hn Hb. destruct (Z.eq_dec b 0) as [->|Hb0].
  - by exists 1.
  - eexists. apply power_closed_form; lia.
Qed.

Lemma land_1_odd (r : Z) : (Z.land r 1 =? 0) = negb (Z.odd r).
Proof.
  change 1 with (Z.ones 1). rewrite Z.land_ones by lia.
  change (2 ^ 1) with 2. rewrite Zmod_odd. by destruct (Z.odd r).
Qed.

Lemma factor_loop_step (qpart : Z -> Z -> M Z) (fuel : nat) (n : Z) (g : rng) :
  factor_loop qpart (S fuel) n g
  = let a := base_of (tape g (pos g)) n in
    let g1 := mkRng (tape g) (S (pos g)) in
    if 1 <? Z.gcd n a then Some ((Z.gcd n a, Z.quot n (Z.gcd n a)), g1)
    else
      match qpart a n g1 with
      | None => None
      | Some (r, g2) =>
          if (r =? 0) || Z.odd r then factor_loop qpart fuel n g2
          else
            (e ← lift (power a (Z.quot r 2 - 1) n);
             if 1 <? Z.gcd e n then mret (Z.gcd e n, Z.quot n (Z.gcd e n))
             else
               e' ← lift (power a (Z.quot r 2 + 1) n);
               mret (Z.gcd e' n, Z.quot n (Z.gcd e' n))) g2
      end.
Proof.
  cbn [factor_loop]. unfold mbind at 1. unfold M_bind at 1. unfold rnd.
  cbv zeta. fold (base_of (tape g (pos g)) n).
  destruct (1 <? Z.gcd n (base_of (tape g (pos g)) n)); [done|].
  unfold mbind at 1. unfold M_bind at 1.
  destruct (qpart _ n _) as [[r g2]|]; [|done].
  rewrite land_1_odd, negb_involutive.
  by destruct ((r =? 0) || Z.odd r).
Qed.

(** C9.  The base lies in [[1, N-1]] and every value there is the base
    of some raw output.  When [gcd(a, N) > 1] the loop prints that
    factor and its cofactor after the one draw, whatever the quantum
    part is.  Otherwise the quantum part is called; the loop draws
    again exactly when it returned 0 or an odd number, and leaves for
    good otherwise.  The loop itself never gives up: while the quantum
    part keeps returning 0 it runs on past any number of rounds.  The
    quantum part makes between one and ten attempts and returns 0 only
    after ten. *)
Theorem factor_retry_structure :
  (forall raw n, 0 <= raw -> 2 <= n -> 1 <= base_of raw n <= n - 1) /\
  (forall a n, 1 <= a <= n - 1 -> n <= 2 ^ 64 ->
               exists raw, 0 <= raw < 2 ^ 64 /\ base_of raw n = a) /\
  (forall qpart fuel n g,
      let a := base_of (tape g (pos g)) n in
      1 < Z.gcd n a ->
      factor_loop qpart (S fuel) n g
      = Some ((Z.gcd n a, Z.quot n (Z.gcd n a)), mkRng (tape g) (S (pos g)))) /\
  (forall qpart fuel n g r g',
      let a := base_of (tape g (pos g)) n in
      Z.gcd n a <= 1 ->
      qpart a n (mkRng (tape g) (S (pos g))) = Some (r, g') ->
      (r = 0 \/ Z.odd r = true ->
       factor_loop qpart (S fuel) n g = factor_loop qpart fuel n g') /\
      (0 < r < 2 ^ 63 -> Z.odd r = false -> 0 <= a -> 0 < n ->
       exists x, factor_loop qpart (S fuel) n g = Some ((x, Z.quot n x), g'))) /\
  (forall fuel n g,
      (forall i, Z.gcd n (base_of (tape g i) n) <= 1) ->
      factor_loop (fun _ _ => mret 0) fuel n g = None) /\
  (forall a N g,
      1 < N <= 1024 -> 0 <= a -> Z.gcd a N = 1 -> tape_ok g ->
      exists r j,
        shor_quantum_part a N g
        = Some (r, mkRng (tape g) (pos g + j * draws_per_attempt N)) /\
        (1 <= j <= 10)%nat /\ (r = 0 -> j = 10%nat) /\ 0 <= r < N).
Proof.
  split; [|split; [|split; [|split; [|split]]]].
  - intros raw n Hraw Hn. unfold base_of.
    pose proof (Z.rem_bound_pos raw (n - 1) Hraw). 
    destruct (Z.eq_dec n 2) as [->|Hn2]; [by rewrite Z.rem_1_r|lia].
  - intros a n Ha Hn. exists (a - 1). split; [lia|]. unfold base_of.
    rewrite Z.rem_small; lia.
  - intros qpart fuel n g a Hgcd. rewrite factor_loop_step. cbv zeta. fold a.
    by destruct (Z.ltb_spec 1 (Z.gcd n a)); [|lia].
  - intros qpart fuel n g r g' a Hgcd Hq. split.
    + intros Hr. rewrite factor_loop_step. cbv zeta. fold a. rewrite Hq.
      destruct (Z.ltb_spec 1 (Z.gcd n a)); [lia|].
      destruct Hr as [-> | ->]; [done|]. by rewrite orb_true_r.
    + intros Hr Heven Ha Hn. rewrite factor_loop_step. cbv zeta. fold a.
      rewrite Hq, Heven.
      destruct (Z.ltb_spec 1 (Z.gcd n a)); [lia|].
      destruct (Z.eqb_spec r 0); [lia|]. cbn [orb].
      assert (Hhalf : 1 <= Z.quot r 2 < 2 ^ 62).
      { rewrite Z.quot_div_nonneg by lia.
        assert (r <> 1) by (intros ->; done).
        split; [apply Z.div_le_lower_bound; lia|].
        apply Z.div_lt_upper_bound; [lia|].
        change (2 * 2 ^ 62) with (2 ^ 63). lia. }
      change (2 ^ 62) with 4611686018427387904 in Hhalf.
      destruct (power_total a (Z.quot r 2 - 1) n Ha Hn) as [e He];
        [change (2 ^ 63) with 9223372036854775808; lia|].
      destruct (power_total a (Z.quot r 2 + 1) n Ha Hn) as [e' He'];
        [change (2 ^ 63) with 9223372036854775808; lia|].
      unfold mbind, M_bind, lift. rewrite He.
      destruct (1 <? Z.gcd e n); [by eexists|].
      rewrite He'. by eexists.
  - intros fuel n g Hgcd. destruct g as [tp ps]. cbn [tape] in Hgcd.
    revert ps. induction fuel as [|fuel IH]; intros ps; [done|].
    rewrite factor_loop_step. cbv zeta. cbn [tape pos].
    destruct (Z.ltb_spec 1 (Z.gcd n (base_of (tp ps) n))) as [Hlt|_].
    { specialize (Hgcd ps). lia. }
    unfold mret, M_ret. cbn [Z.eqb orb]. apply IH.
  - intros a N g HN Ha Hgcd Htape.
    destruct (shor_attempts_run 10 a N g HN Ha Hgcd Htape)
      as (r & j & Hrun & Hj & Hzero & Hnz & Hr).
    exists r, j. split; [done|]. split; [|done].
    destruct (Z.eq_dec r 0) as [Hr0|Hr0]; [specialize (Hzero Hr0)|specialize (Hnz Hr0)]; lia.
Qed.

Lemma factor_retry_structure_witness :
  1 <= base_of 7 15 <= 15 - 1 /\
  factor 1 15 (constant_tape 4)
  = Some ((5, 3), mkRng (tape (constant_tape 4)) 1) /\
  exists r j,
    shor_quantum_part 2 3 (constant_tape 0)
    = Some (r, mkRng (tape (constant_tape 0))
                     (pos (constant_tape 0) + j * draws_per_attempt 3)) /\
    (1 <= j <= 10)%nat /\ (r = 0 -> j = 10%nat) /\ 0 <= r < 3.
Proof.
  destruct factor_retry_structure as (Hbase & _ & Hexit & _ & _ & Hq).
  split; [apply Hbase; lia|].
  split.
  - apply (Hexit shor_quantum_part 0%nat 15 (constant_tape 4)).
    vm_compute. reflexivity.
  - apply Hq.
    + lia.
    + lia.
    + reflexivity.
    + apply constant_tape_ok. lia.
Defined.

(** ** The Fourier step on a concrete block *)

Lemma twiddle_2 : twiddle 2 = (0%R, 1%R).
Proof. unfold twiddle. by rewrite cos_PI2, sin_PI2. Qed.

Lemma butterflies_twiddled_with_delta (tw : Z -> C) :
  vget (butterflies_twiddled_with tw [C0; C0; C1; C0] 4) 1 = tw 2.
Proof.
  vm_compute. destruct (tw 2) as [x y]. f_equal; ring.
Qed.

(** C5 (code defect).  [QFT] on [delta_state] with [m = 2], [t = 0]:
    the block [0, 1, 0, 0] becomes [1/4, 1/4, -1/4, -1/4] (after the
    swap stage the butterfly input is [0, 0, 1, 0], and the result is
    divided by the squared norm 4).  The butterfly of the source steps
    the twiddle [p] but never multiplies by it, so the entry of index 1
    is [1] where the twiddled butterfly gives [exp(i*pi/2) = i].
    Besides, the table built for [m = 3] maps every non-zero index to
    4, which is not the bit reversal. *)
Theorem QFT_ignores_twiddle :
  Qubits.a (QFT delta_state 2 0 (fill_rev 2))
  = [Creal (1 / 4); Creal (1 / 4); Creal (- (1 / 4)); Creal (- (1 / 4));
     C0; C0; C0; C0] /\
  vget (butterflies [C0; C0; C1; C0] 4) 1 = (1%R, 0%R) /\
  vget (butterflies_twiddled [C0; C0; C1; C0] 4) 1 = (0%R, 1%R) /\
  fill_rev 3 = [0; 4; 4; 4; 4; 4; 4; 4].
Proof.
  split; [vm_compute; repeat f_equal; field|].
  split; [vm_compute; f_equal; ring|].
  split; [|reflexivity].
  unfold butterflies_twiddled.
  by rewrite butterflies_twiddled_with_delta, twiddle_2.
Qed.

(** ** Grover *)










